(** * fret_hmm: random hidden-Markov models and synthetic trajectories

    A shallow embedding of [src/fret_hmm.py]: the categorical sampler
    [weighted_choice], the model factory [random_model] /
    [random_model_from_emissions] and the trajectory simulator
    [random_data].

    Conventions of the embedding.
    - Python floats are [pyfloat]: a finite value carried as a rational,
      or one of the IEEE specials that a division by zero produces.
      Arithmetic on finite values is exact: the rounding of binary64 is
      not modelled.  The theorems on the sampler and on the simulator use
      of the arithmetic only what rounding to nearest keeps (the order
      and the sign of numbers, and operations that are exact in
      binary64); the lemmas on normalisation that rest on exact sums say
      so.
    - The two ambient generators of the script (the [random] module and
      [numpy.random]) are fields of [World]: a tape of future outputs and a
      read position each.  Every function that draws is a computation in
      the state-and-exception monad [M].
    - Python exceptions are the [Raise] branch of [result]. *)

From Stdlib Require Import List ZArith QArith Lia Lqa Bool Arith.
Import ListNotations.

Set Implicit Arguments.

(** ** Floats *)

Module PyFloat.

Inductive pyfloat : Type :=
| Fin (q : Q)
| PInf
| NInf
| NaN.

Definition Qltb (x y : Q) : bool := negb (Qle_bool y x).

(** [a < b] on floats: every comparison with a nan is false. *)
Definition flt (a b : pyfloat) : bool :=
  match a, b with
  | Fin x, Fin y => Qltb x y
  | Fin _, PInf => true
  | NInf, Fin _ => true
  | NInf, PInf => true
  | _, _ => false
  end.

(** [a - b] on floats; exact on finite values, where binary64 rounds the
    difference. *)
Definition fsub (a b : pyfloat) : pyfloat :=
  match a, b with
  | NaN, _ | _, NaN => NaN
  | Fin x, Fin y => Fin (x - y)
  | Fin _, PInf => NInf
  | Fin _, NInf => PInf
  | PInf, PInf => NaN
  | NInf, NInf => NaN
  | PInf, _ => PInf
  | NInf, _ => NInf
  end.

(** [x / y] for finite operands, as numpy computes it: [0/0] is nan and
    [x/0] is an infinity of the sign of [x] (a warning, no exception).
    A finite quotient is exact, where binary64 rounds it. *)
Definition fdiv (x y : Q) : pyfloat :=
  if Qeq_bool y 0 then
    (if Qeq_bool x 0 then NaN else if Qltb 0 x then PInf else NInf)
  else Fin (x / y).

(** The rational a float stands for; the specials count as [0] and are
    never asked for under a [nonneg] hypothesis. *)
Definition valueQ (a : pyfloat) : Q :=
  match a with Fin q => q | _ => 0 end.

(** A finite, non-negative weight. *)
Definition nonneg (a : pyfloat) : Prop :=
  match a with Fin q => 0 <= q | _ => False end.

Definition fsum (l : list pyfloat) : Q :=
  fold_right (fun a acc => valueQ a + acc) 0 l.

Definition Qsum (l : list Q) : Q := fold_right Qplus 0 l.

End PyFloat.
Import PyFloat.

Local Open Scope nat_scope.

(** ** Exceptions, results and the ambient generators *)

Inductive exn : Type :=
| RuntimeError
| ValueError
| IndexError.

Inductive result (A : Type) : Type :=
| Ok (a : A)
| Raise (e : exn).
Arguments Ok {A} a.
Arguments Raise {A} e.

(** The process-wide generator state.  [py_tape k] is the [k]-th value
    [random.random()] returns; [np_sample], [np_int] and [np_pois] are
    what numpy's global generator returns at its [k]-th draw for
    [random_sample], [randint] (before reduction to the range) and
    [poisson] (at a given rate). *)
Record World : Type := mkWorld {
  py_tape : nat -> Q;
  py_pos : nat;
  np_sample : nat -> Q;
  np_int : nat -> Z;
  np_pois : nat -> Q -> Z;
  np_pos : nat
}.

(** The contract of [random.random()] and [random_sample]: values in
    [[0, 1)]. *)
Definition unit_draws (w : World) : Prop :=
  forall k, (0 <= py_tape w k /\ py_tape w k < 1)%Q /\
            (0 <= np_sample w k /\ np_sample w k < 1)%Q.

Definition M (A : Type) : Type := World -> result (A * World).

Definition ret {A} (a : A) : M A := fun w => Ok (a, w).

Definition bind {A B} (c : M A) (k : A -> M B) : M B :=
  fun w => match c w with
           | Ok (a, w') => k a w'
           | Raise e => Raise e
           end.

Definition lift {A} (r : result A) : M A :=
  fun w => match r with Ok a => Ok (a, w) | Raise e => Raise e end.

Notation "x <- c ;; k" := (bind c (fun x => k))
  (at level 61, c at next level, right associativity).

(** The generator state after one [random.random()]. *)
Definition tick (w : World) : World :=
  mkWorld (py_tape w) (S (py_pos w))
          (np_sample w) (np_int w) (np_pois w) (np_pos w).

(** [random.random()] *)
Definition random : M Q :=
  fun w => Ok (py_tape w (py_pos w), tick w).

Definition np_advance (n : nat) (w : World) : World :=
  mkWorld (py_tape w) (py_pos w)
          (np_sample w) (np_int w) (np_pois w) (n + np_pos w).

(** [numpy.random.random_sample(n)] *)
Definition random_sample (n : nat) : M (list Q) :=
  fun w => Ok (map (fun k => np_sample w (np_pos w + k)) (seq 0 n),
               np_advance n w).

(** ** CategoricalSampler *)

(** The [for c, p in zip(choices, probs)] loop of [weighted_choice], from
    the draw [r] on. *)
Fixpoint walk {A} (r : pyfloat) (cps : list (A * pyfloat)) : result A :=
  match cps with
  | [] => Raise RuntimeError
  | (c, p) :: rest => if flt r p then Ok c else walk (fsub r p) rest
  end.

Definition weighted_choice {A} (choices : list A) (probs : list pyfloat)
  : M A :=
  r <- random ;;
  lift (walk (Fin r) (combine choices probs)).

(** [xrange(n)] *)
Definition xrange (n : nat) : list nat := seq 0 n.

(** ** numpy arrays of finite numbers *)

(** An array is its shape and its entries in row-major order. *)
Record ndarray : Type := mkArray {
  shape : list nat;
  flat : list Q
}.

Definition size_of (sh : list nat) : nat := fold_right Nat.mul 1 sh.

(** The invariant numpy keeps of every array. *)
Definition wf_array (a : ndarray) : Prop :=
  length (flat a) = size_of (shape a).

(** [a[i]] for a non-negative index: the [i]-th sub-array along the first
    axis. *)
Definition getitem (a : ndarray) (i : nat) : result ndarray :=
  match shape a with
  | [] => Raise IndexError
  | d :: ds =>
      if i <? d
      then Ok (mkArray ds (firstn (size_of ds) (skipn (i * size_of ds) (flat a))))
      else Raise IndexError
  end.

(** [a.reshape(sh)] *)
Definition reshape (a : ndarray) (sh : list nat) : result ndarray :=
  if size_of sh =? length (flat a) then Ok (mkArray sh (flat a))
  else Raise ValueError.

(** [len(a)] of an array of rank at least one. *)
Definition len (a : ndarray) : nat := hd 0 (shape a).

(** [n_states, n_obs = a.shape] *)
Definition unpack2 (sh : list nat) : result (nat * nat) :=
  match sh with
  | [r; c] => Ok (r, c)
  | _ => Raise ValueError
  end.

(** [RandomState.poisson_lam_max], the largest rate [poisson] accepts:
    the largest C long less ten times its square root, computed in
    binary64, for a C long of 64 bits. *)
Definition poisson_lam_max : Q := inject_Z 9223372006484770816.

(** [numpy.random.poisson(lam)] on an array of rates: one draw per entry;
    [ValueError] on a negative rate, then on a rate above
    [poisson_lam_max]. *)
Definition poisson (lam : ndarray) : M ndarray :=
  fun w =>
    if existsb (fun l => Qltb l 0%Q) (flat lam) then Raise ValueError
    else if existsb (fun l => Qltb poisson_lam_max l) (flat lam)
    then Raise ValueError
    else Ok (mkArray (shape lam)
               (map (fun kl => inject_Z (np_pois w (np_pos w + fst kl) (snd kl)))
                    (combine (seq 0 (length (flat lam))) (flat lam))),
             np_advance (length (flat lam)) w).

(** [numpy.random.randint(low, high, (r, c))] *)
Definition randint (low high : Z) (r c : nat) : M ndarray :=
  fun w =>
    if (high <=? low)%Z then Raise ValueError
    else Ok (mkArray [r; c]
               (map (fun k =>
                       inject_Z (low + np_int w (np_pos w + k) mod (high - low))%Z)
                    (seq 0 (r * c))),
             np_advance (r * c) w).

(** ** Model *)

(** [Model = namedtuple('Model', 'n_states n_obs start_prob trans_prob emissions')] *)
Record Model : Type := mkModel {
  n_states : nat;
  n_obs : nat;
  start_prob : list pyfloat;
  trans_prob : list (list pyfloat);
  emissions : ndarray
}.

(** [l[i]] on a Python sequence, for a non-negative index. *)
Definition index {A} (l : list A) (i : nat) : result A :=
  match nth_error l i with
  | Some x => Ok x
  | None => Raise IndexError
  end.

(** ** ModelFactory *)

(** [t[i] = v] *)
Fixpoint setitem {A} (t : list A) (i : nat) (v : A) : result (list A) :=
  match t, i with
  | [], _ => Raise IndexError
  | _ :: rest, O => Ok (v :: rest)
  | x :: rest, S j =>
      match setitem rest j v with
      | Ok rest' => Ok (x :: rest')
      | Raise e => Raise e
      end
  end.

(** [v /= sum(v)] *)
Definition normalize (v : list Q) : list pyfloat :=
  map (fun x => fdiv x (Qsum v)) v.

(** One pass of the body of [for i in xrange(n_states)]: the row built for
    state [i].  The products [stay_prob * sample] are exact, where
    binary64 rounds them. *)
Definition transition_row (n i : nat) : M (list pyfloat) :=
  stay_prob <- random ;;
  samples <- random_sample n ;;
  t <- lift (setitem (map (Qmult stay_prob) samples) i stay_prob) ;;
  ret (normalize t).

Fixpoint transition_rows (n : nat) (todo : list nat) (acc : list (list pyfloat))
  : M (list (list pyfloat)) :=
  match todo with
  | [] => ret acc
  | i :: rest =>
      t <- transition_row n i ;;
      transition_rows n rest (acc ++ [t])
  end.

Definition random_model_from_emissions (emissions : ndarray) : M Model :=
  emissions <- (if length (shape emissions) =? 1
                then lift (reshape emissions [len emissions; 1])
                else ret emissions) ;;
  dims <- lift (unpack2 (shape emissions)) ;;
  let n_states := fst dims in
  let n_obs := snd dims in
  start <- random_sample n_states ;;
  let start_prob := normalize start in
  transition_prob <- transition_rows n_states (xrange n_states) [] ;;
  ret (mkModel n_states n_obs start_prob transition_prob emissions).

Definition random_model (n_states n_obs : nat) : M Model :=
  emissions <- randint 0 1500 n_states n_obs ;;
  random_model_from_emissions emissions.

(** ** TrajectorySimulator *)

(** The local variables of [random_data] that the loop updates. *)
Record Locals : Type := mkLocals {
  state : nat;
  dwell : nat;
  data : list ndarray;
  state_seq : list nat;
  dwells : list (list nat)
}.

(** [dwells[s].append(d)] *)
Fixpoint append_at (dw : list (list nat)) (s d : nat)
  : result (list (list nat)) :=
  match dw, s with
  | [], _ => Raise IndexError
  | l :: rest, O => Ok ((l ++ [d]) :: rest)
  | l :: rest, S j =>
      match append_at rest j d with
      | Ok rest' => Ok (l :: rest')
      | Raise e => Raise e
      end
  end.

(** The body of [for i in xrange(length)]. *)
Definition step (model : Model) (noise : bool) (v : Locals) : M Locals :=
  let state_seq := state_seq v ++ [state v] in
  datum <- lift (getitem (emissions model) (state v)) ;;
  datum <- (if noise then poisson datum else ret datum) ;;
  let data := data v ++ [datum] in
  let old_state := state v in
  row <- lift (index (trans_prob model) (state v)) ;;
  state <- weighted_choice (xrange (n_states model)) row ;;
  if negb (state =? old_state) then
    dwells <- lift (append_at (dwells v) old_state (dwell v)) ;;
    ret (mkLocals state (0 + 1) data state_seq dwells)
  else
    ret (mkLocals state (dwell v + 1) data state_seq (dwells v)).

Fixpoint iterate (n : nat) (body : Locals -> M Locals) (v : Locals)
  : M Locals :=
  match n with
  | O => ret v
  | S k => v' <- body v ;; iterate k body v'
  end.

(** [random_data] up to its [return]: the locals when the loop is over. *)
Definition random_data_run (model : Model) (length : Z) (noise : bool)
  : M Locals :=
  state <- weighted_choice (xrange (n_states model)) (start_prob model) ;;
  let dwells := map (fun _ => @nil nat) (seq 0 (n_states model)) in
  iterate (Z.to_nat length) (step model noise)
          (mkLocals state 0 [] [] dwells).

Definition random_data (model : Model) (length : Z) (noise : bool)
  : M (list ndarray * list nat * list (list nat)) :=
  v <- random_data_run model length noise ;;
  ret (data v, state_seq v, dwells v).

(** Drop the generator state of a finished computation. *)
Definition outcome {A} (r : result (A * World)) : result A :=
  match r with Ok (a, _) => Ok a | Raise e => Raise e end.

(** ** Validity of a model (section 3 of the specification) *)

(** The tolerance on the sum of a probability vector (section 8 of the
    specification: [1 +- 1e-9]). *)
Definition sum_tolerance : Q := 1 # 1000000000.

(** [n] finite non-negative weights that sum to one within the
    tolerance. *)
Definition distribution (n : nat) (p : list pyfloat) : Prop :=
  length p = n /\ Forall nonneg p /\
  (1 - sum_tolerance <= fsum p)%Q /\ (fsum p <= 1 + sum_tolerance)%Q.

Record valid_model (m : Model) : Prop := mkValid {
  vm_states : 1 <= n_states m;
  vm_start : distribution (n_states m) (start_prob m);
  vm_rows : length (trans_prob m) = n_states m;
  vm_trans : Forall (distribution (n_states m)) (trans_prob m);
  vm_shape : shape (emissions m) = [n_states m; n_obs m];
  vm_wf : wf_array (emissions m);
  vm_rates : Forall (fun x => (0 <= x)%Q) (flat (emissions m))
}.

(** ** Dwell runs of a chain of states *)

(** Run-length encoding of a chain, read from the left while a run of [k]
    steps in state [s] is open: pairs (state, number of steps). *)
Fixpoint runs_from (s k : nat) (chain : list nat) : list (nat * nat) :=
  match chain with
  | [] => [(s, k)]
  | s' :: rest =>
      if s' =? s then runs_from s (S k) rest
      else (s, k) :: runs_from s' 1 rest
  end.

Definition runs (chain : list nat) : list (nat * nat) :=
  match chain with
  | [] => []
  | s :: rest => runs_from s 1 rest
  end.

(** The chain a list of runs stands for. *)
Definition expand (rs : list (nat * nat)) : list nat :=
  flat_map (fun r => repeat (fst r) (snd r)) rs.

(** The runs the chain has left: all but the last one. *)
Definition completed_runs (chain : list nat) : list (nat * nat) :=
  removelast (runs chain).

(** The first run is booked one step short. *)
Definition first_short (rs : list (nat * nat)) : list (nat * nat) :=
  match rs with
  | [] => []
  | (s, k) :: rest => (s, pred k) :: rest
  end.

(** The per-state lists of lengths, in the order of the runs. *)
Definition dwells_of (n : nat) (rs : list (nat * nat)) : list (list nat) :=
  map (fun s => map snd (filter (fun r => fst r =? s) rs)) (seq 0 n).

(** ** Generator states that cannot be told apart *)

Definition same_source (w1 w2 : World) : Prop :=
  py_pos w1 = py_pos w2 /\ np_pos w1 = np_pos w2 /\
  (forall k, py_tape w1 k = py_tape w2 k) /\
  (forall k, np_sample w1 k = np_sample w2 k) /\
  (forall k, np_int w1 k = np_int w2 k) /\
  (forall k l, np_pois w1 k l = np_pois w2 k l).

(** Two runs end alike: the same value and indistinguishable generators,
    or the same exception. *)
Definition agree {A} (r1 r2 : result (A * World)) : Prop :=
  match r1, r2 with
  | Ok (a1, w1), Ok (a2, w2) => a1 = a2 /\ same_source w1 w2
  | Raise e1, Raise e2 => e1 = e2
  | _, _ => False
  end.

Definition deterministic {A} (c : M A) : Prop :=
  forall w1 w2, same_source w1 w2 -> agree (c w1) (c w2).

(** Draws that are never exactly zero. *)
Definition positive_draws (w : World) : Prop :=
  forall k, (0 < py_tape w k)%Q /\ (0 < np_sample w k)%Q.

(** ** Concrete inputs *)

Module Scenario.

(** A generator whose every uniform draw is [r]. *)
Definition constant_world (r : Q) : World :=
  mkWorld (fun _ => r) 0 (fun _ => r) (fun _ => 7%Z) (fun _ _ => 3%Z) 0.

Definition half_world : World := constant_world (1 # 2).




(** The two-state model that always alternates, with emission rows
    [[10, 0]] and [[0, 20]]. *)
Definition alternating : Model :=
  mkModel 2 2 [Fin 1; Fin 0]
          [[Fin 0; Fin 1]; [Fin 1; Fin 0]]
          (mkArray [2; 2] [10%Q; 0%Q; 0%Q; 20%Q]).

(** A two-state model whose state [0] always keeps itself. *)
Definition absorbing : Model :=
  mkModel 2 1 [Fin 1; Fin 0]
          [[Fin 1; Fin 0]; [Fin (1 # 2); Fin (1 # 2)]]
          (mkArray [2; 1] [342%Q; 541%Q]).

(** A two-state model with all weights one half: a draw below one half
    picks state [0], any other draw state [1]. *)
Definition uniform2 : Model :=
  mkModel 2 1 [Fin (1 # 2); Fin (1 # 2)]
          [[Fin (1 # 2); Fin (1 # 2)]; [Fin (1 # 2); Fin (1 # 2)]]
          (mkArray [2; 1] [342%Q; 541%Q]).

(** Draws [1/4, 1/4, 3/4, 3/4, 3/4, 1/4, 1/4, ...]: draws 2, 3 and 4
    are high, every other one is low. *)
Definition pattern_world : World :=
  mkWorld (fun k => if (2 <=? k) && (k <=? 4) then 3 # 4 else 1 # 4) 0
          (fun _ => 1 # 2) (fun _ => 7%Z) (fun _ _ => 3%Z) 0.

(** The same draws as [pattern_world], written another way. *)
Definition pattern_world_again : World :=
  mkWorld (fun k => if (k <? 2) || (4 <? k) then 1 # 4 else 3 # 4) 0
          (fun _ => 1 # 2) (fun _ => 7%Z) (fun _ _ => 3%Z) 0.

(** [random.random()] returns [0.0]; numpy's generator returns one
    half. *)
Definition zero_stay_world : World :=
  mkWorld (fun _ => 0%Q) 0 (fun _ => 1 # 2) (fun _ => 7%Z) (fun _ _ => 3%Z) 0.

(** Two calls of [random_data] with the same arguments, one after the
    other. *)
Definition two_calls
  : M ((list ndarray * list nat * list (list nat)) *
       (list ndarray * list nat * list (list nat))) :=
  t1 <- random_data uniform2 2 false ;;
  t2 <- random_data uniform2 2 false ;;
  ret (t1, t2).

(** The observation rows of [alternating]. *)
Definition row_a : ndarray := mkArray [2] [10%Q; 0%Q].
Definition row_b : ndarray := mkArray [2] [0%Q; 20%Q].

End Scenario.

(** ** Further notions used by the properties below *)

(** The weight of the move from [s] to [s'] is finite and positive. *)
Definition positive_transition (m : Model) (s s' : nat) : Prop :=
  exists row p,
    nth_error (trans_prob m) s = Some row /\
    nth_error row s' = Some (Fin p) /\ (0 < p)%Q.

(** Every move of a chain has positive weight. *)
Definition positive_path (m : Model) (chain : list nat) : Prop :=
  forall i s s',
    nth_error chain i = Some s -> nth_error chain (S i) = Some s' ->
    positive_transition m s s'.

(** The number of steps booked in the dwell lists, all states together. *)
Definition dwell_total (dw : list (list nat)) : nat :=
  list_sum (map (@list_sum) dw).

(** A finite weight, of either sign. *)
Definition finite_weight (a : pyfloat) : Prop := exists q : Q, a = Fin q.

(** A finite weight that is zero or negative. *)
Definition nonpositive (a : pyfloat) : Prop :=
  match a with Fin q => (q <= 0)%Q | _ => False end.

(** A whole number, as [poisson] and [randint] return. *)
Definition integral (q : Q) : Prop := exists z : Z, q = inject_Z z.

(** Two generator states with the same [random] module: same tape, same
    position.  numpy's generator may differ. *)
Definition same_python (w1 w2 : World) : Prop :=
  py_tape w1 = py_tape w2 /\ py_pos w1 = py_pos w2.

(** The tapes of [w'] are those of [w]: only positions have moved. *)
Definition same_tapes (w w' : World) : Prop :=
  py_tape w' = py_tape w /\ np_sample w' = np_sample w /\
  np_int w' = np_int w /\ np_pois w' = np_pois w.

(** ** The trained model, as [transition_matrix] reads it *)

Module Ghmm.

(** What the script uses of a [ghmm.HMM]: its number of states [N] and
    [getTransition(row, col)]. *)
Record HMM : Type := mkHMM {
  N : nat;
  getTransition : nat -> nat -> Q
}.

End Ghmm.

(** [numpy.array(rows)] on a list of rows of one length. *)
Definition array (rows : list (list Q)) : ndarray :=
  match rows with
  | [] => mkArray [0] []
  | r :: _ => mkArray [length rows; length r] (concat rows)
  end.

(** [range(n)] *)
Definition range (n : nat) : list nat := seq 0 n.

(** [get_row = lambda row : [ hmm.getTransition(row,col) for col in range(hmm.N) ]] *)
Definition get_row (hmm : Ghmm.HMM) (row : nat) : list Q :=
  map (fun col => Ghmm.getTransition hmm row col) (range (Ghmm.N hmm)).

Definition transition_matrix (hmm : Ghmm.HMM) : ndarray :=
  array (map (fun row => get_row hmm row) (range (Ghmm.N hmm))).

(** ** Further concrete inputs *)

Module Example.

(** Three outcomes of weights [1/2], [0] and [1/2]. *)
Definition gap_probs : list pyfloat := [Fin (1 # 2); Fin 0; Fin (1 # 2)].

(** A generator whose draws are all [3/4]. *)
Definition upper_world : World := Scenario.constant_world (3 # 4).


(** An HMM that reads its transitions off a fixed matrix. *)
Definition hmm2 : Ghmm.HMM :=
  Ghmm.mkHMM 2 (fun row col =>
                  nth col (nth row [[1 # 4; 3 # 4]; [2 # 3; 1 # 3]] []) 0%Q).

End Example.
(** * Properties *)

Unset Implicit Arguments.

(** ** Rational comparisons *)

Lemma Qltb_lt (x y : Q) : Qltb x y = true <-> (x < y)%Q.
Proof.
  unfold Qltb. rewrite negb_true_iff.
  split; intro H.
  - apply Qnot_le_lt. intro Hle.
    apply Qle_bool_iff in Hle. congruence.
  - destruct (Qle_bool y x) eqn:E; [|reflexivity].
    apply Qle_bool_iff in E. exfalso. apply (Qlt_not_le _ _ H E).
Qed.

Lemma Qltb_ge (x y : Q) : Qltb x y = false <-> (y <= x)%Q.
Proof.
  unfold Qltb. rewrite negb_false_iff. apply Qle_bool_iff.
Qed.

(** ** The sampler's walk *)

Section Walk.
Context {A : Type}.

Lemma fsum_cons (a : pyfloat) (p : list pyfloat) :
  fsum (a :: p) = (valueQ a + fsum p)%Q.
Proof. reflexivity. Qed.

Lemma fsum_nonneg (p : list pyfloat) : Forall nonneg p -> (0 <= fsum p)%Q.
Proof.
  induction 1 as [|a p Ha _ IH]; [unfold fsum; simpl; lra|].
  rewrite fsum_cons.
  destruct a; simpl in *; try contradiction. lra.
Qed.

(** Whatever the weights are, an outcome that comes back is one of the
    zipped outcomes. *)
Lemma walk_In (cps : list (A * pyfloat)) :
  forall r c, walk r cps = Ok c -> In c (map fst cps).
Proof.
  induction cps as [|[c0 p] rest IH]; simpl; intros r c H; [discriminate|].
  destruct (flt r p).
  - left. congruence.
  - right. eauto.
Qed.

(** The only exception of the walk is the [RuntimeError] of its last
    line. *)
Lemma walk_Raise (cps : list (A * pyfloat)) :
  forall r e, walk r cps = Raise e -> e = RuntimeError.
Proof.
  induction cps as [|[c0 p] rest IH]; simpl; intros r e H.
  - congruence.
  - destruct (flt r p); [discriminate | eauto].
Qed.




Lemma combine_fst_incl (choices : list A) (probs : list pyfloat) c :
  In c (map fst (combine choices probs)) -> In c choices.
Proof.
  revert probs. induction choices as [|c0 cs IH]; intros [|p ps];
    simpl; try tauto.
  intros [H|H]; eauto.
Qed.
End Walk.

Lemma weighted_choice_unfold A (choices : list A) probs w :
  weighted_choice choices probs w =
  match walk (Fin (py_tape w (py_pos w))) (combine choices probs) with
  | Ok c => Ok (c, tick w)
  | Raise e => Raise e
  end.
Proof. reflexivity. Qed.

Lemma unit_draws_tick w : unit_draws w -> unit_draws (tick w).
Proof. intros H k. exact (H k). Qed.

Lemma unit_draws_np_advance n w : unit_draws w -> unit_draws (np_advance n w).
Proof. intros H k. exact (H k). Qed.

(** An outcome returned by the sampler is one of [choices]. *)
Lemma weighted_choice_In A (choices : list A) probs w c w' :
  weighted_choice choices probs w = Ok (c, w') ->
  In c choices /\ w' = tick w.
Proof.
  rewrite weighted_choice_unfold.
  destruct (walk _ _) as [c0|e] eqn:E; [|discriminate].
  intro H. inversion H; subst. split; [|reflexivity].
  eapply combine_fst_incl, walk_In; eauto.
Qed.

(** ** CategoricalSampler: when the walk returns *)




(** ** One pass of the simulation loop *)

Ltac inv H := inversion H; subst; clear H.

Lemma bind_Ok A B (c : M A) (k : A -> M B) w b w' :
  (x <- c ;; k x) w = Ok (b, w') ->
  exists a w1, c w = Ok (a, w1) /\ k a w1 = Ok (b, w').
Proof.
  unfold bind. destruct (c w) as [[a w1]|e]; [|discriminate].
  intro H. eauto.
Qed.

Lemma lift_Ok A (r : result A) w a w' :
  lift r w = Ok (a, w') -> r = Ok a /\ w' = w.
Proof.
  unfold lift. destruct r; [|discriminate]. intro H. inv H. auto.
Qed.

Lemma ret_Ok A (a b : A) w w' : ret a w = Ok (b, w') -> b = a /\ w' = w.
Proof. unfold ret. intro H. inv H. auto. Qed.

(** What a pass that does not raise has done. *)
Lemma step_Ok m noise v w v' w' :
  step m noise v w = Ok (v', w') ->
  exists datum0 datum row w1,
    getitem (emissions m) (state v) = Ok datum0 /\
    (if noise then poisson datum0 w = Ok (datum, w1)
     else datum = datum0 /\ w1 = w) /\
    index (trans_prob m) (state v) = Ok row /\
    weighted_choice (xrange (n_states m)) row w1 = Ok (state v', w') /\
    data v' = data v ++ [datum] /\
    state_seq v' = state_seq v ++ [state v] /\
    (if state v' =? state v
     then dwell v' = dwell v + 1 /\ dwells v' = dwells v
     else dwell v' = 1 /\
          append_at (dwells v) (state v) (dwell v) = Ok (dwells v')).
Proof.
  unfold step. intro H.
  apply bind_Ok in H. destruct H as (datum0 & wa & Hg & H).
  apply lift_Ok in Hg. destruct Hg as [Hg ->].
  apply bind_Ok in H. destruct H as (datum & w1 & Hn & H).
  apply bind_Ok in H. destruct H as (row & wb & Hr & H).
  apply lift_Ok in Hr. destruct Hr as [Hr ->].
  apply bind_Ok in H. destruct H as (s' & w2 & Hc & H).
  exists datum0, datum, row, w1.
  assert (Hnoise : if noise then poisson datum0 w = Ok (datum, w1)
                   else datum = datum0 /\ w1 = w).
  { destruct noise; [exact Hn|]. apply ret_Ok in Hn. exact Hn. }
  destruct (s' =? state v) eqn:E; simpl in H.
  - apply ret_Ok in H. destruct H as [-> ->]. simpl. rewrite E.
    repeat split; auto.
  - apply bind_Ok in H. destruct H as (dw & w3 & Ha & H).
    apply lift_Ok in Ha. destruct Ha as [Ha ->].
    apply ret_Ok in H. destruct H as [-> ->]. simpl. rewrite E.
    repeat split; auto.
Qed.

Lemma iterate_Ok_ind (P : nat -> Locals -> World -> Prop) body :
  (forall k v w v' w', P k v w -> body v w = Ok (v', w') -> P (S k) v' w') ->
  forall n k v w v' w',
    P k v w -> iterate n body v w = Ok (v', w') -> P (n + k) v' w'.
Proof.
  intros Hstep. induction n as [|n IH]; simpl; intros k v w v' w' HP H.
  - apply ret_Ok in H. destruct H as [-> ->]. exact HP.
  - apply bind_Ok in H. destruct H as (v1 & w1 & Hb & H).
    replace (S (n + k)) with (n + S k) by lia.
    eapply IH; [|exact H]. eapply Hstep; eauto.
Qed.

Lemma iterate_total (I : Locals -> World -> Prop) body :
  (forall v w, I v w -> exists v' w', body v w = Ok (v', w') /\ I v' w') ->
  forall n v w, I v w ->
    exists v' w', iterate n body v w = Ok (v', w') /\ I v' w'.
Proof.
  intros Hstep. induction n as [|n IH]; simpl; intros v w HI.
  - exists v, w. split; [reflexivity | exact HI].
  - destruct (Hstep v w HI) as (v1 & w1 & Hb & HI1).
    destruct (IH v1 w1 HI1) as (v2 & w2 & Hit & HI2).
    exists v2, w2. unfold bind. rewrite Hb. auto.
Qed.

(** ** TrajectorySimulator: lengths and range of the state sequence *)

Lemma step_shape m noise k v w v' w' :
  (length (data v) = k /\ length (state_seq v) = k /\
   Forall (fun s => s < n_states m) (state_seq v) /\ state v < n_states m) ->
  step m noise v w = Ok (v', w') ->
  length (data v') = S k /\ length (state_seq v') = S k /\
  Forall (fun s => s < n_states m) (state_seq v') /\ state v' < n_states m.
Proof.
  intros (Hd & Hs & Hall & Hst) H.
  apply step_Ok in H.
  destruct H as (datum0 & datum & row & w1 & _ & _ & _ & Hc & Hd' & Hs' & _).
  apply weighted_choice_In in Hc. destruct Hc as [Hin _].
  unfold xrange in Hin. apply in_seq in Hin.
  rewrite Hd', Hs', !length_app. simpl.
  repeat split; try lia.
  apply Forall_app. split; [exact Hall|]. constructor; [exact Hst | constructor].
Qed.

(** Every trajectory that [random_data] returns has [length] observations
    and states, all states below [n_states]; so has the state the chain
    moved to last. *)
Lemma random_data_run_shape m L noise w v w' :
  random_data_run m L noise w = Ok (v, w') ->
  length (data v) = Z.to_nat L /\ length (state_seq v) = Z.to_nat L /\
  Forall (fun s => s < n_states m) (state_seq v) /\ state v < n_states m.
Proof.
  unfold random_data_run. intro H.
  apply bind_Ok in H. destruct H as (s0 & w1 & Hc & H).
  apply weighted_choice_In in Hc. destruct Hc as [Hin _].
  unfold xrange in Hin. apply in_seq in Hin.
  pose proof (@iterate_Ok_ind
    (fun k v _ => length (data v) = k /\ length (state_seq v) = k /\
       Forall (fun s => s < n_states m) (state_seq v) /\ state v < n_states m)
    (step m noise)) as Hind.
  simpl in Hind.
  specialize (fun Hs => Hind Hs (Z.to_nat L) 0).
  rewrite Nat.add_0_r in Hind.
  eapply Hind; [| |exact H].
  - intros k v0 w0 v1 w2 HP Hb. eapply step_shape; eauto.
  - simpl. repeat split; auto. lia.
Qed.

Lemma random_data_Ok m L noise w obs seq dw w' :
  random_data m L noise w = Ok ((obs, seq, dw), w') ->
  exists v, random_data_run m L noise w = Ok (v, w') /\
            obs = data v /\ seq = state_seq v /\ dw = dwells v.
Proof.
  unfold random_data. intro H.
  apply bind_Ok in H. destruct H as (v & w1 & Hr & H).
  apply ret_Ok in H. destruct H as [H ->]. inv H. eauto.
Qed.

Lemma append_at_total dw s d :
  s < length dw ->
  exists dw', append_at dw s d = Ok dw' /\ length dw' = length dw.
Proof.
  revert s. induction dw as [|l rest IH]; intros s Hs; simpl in *; [lia|].
  destruct s as [|j].
  - eexists. split; [reflexivity|]. reflexivity.
  - destruct (IH j) as (rest' & Hr & Hl); [lia|].
    rewrite Hr. eexists. split; [reflexivity|]. simpl. lia.
Qed.

Lemma In_firstn A (l : list A) n x : In x (firstn n l) -> In x l.
Proof.
  revert n. induction l as [|a l IH]; intros [|n]; simpl; try tauto.
  intros [H|H]; eauto.
Qed.

Lemma In_skipn A (l : list A) n x : In x (skipn n l) -> In x l.
Proof.
  revert n. induction l as [|a l IH]; intros [|n]; simpl; try tauto.
  intro H. right. eauto.
Qed.

Lemma getitem_row a r c i :
  shape a = [r; c] -> i < r ->
  getitem a i = Ok (mkArray [c] (firstn (c * 1) (skipn (i * (c * 1)) (flat a)))).
Proof.
  intros Hs Hi. unfold getitem. rewrite Hs.
  apply Nat.ltb_lt in Hi. rewrite Hi. reflexivity.
Qed.


Lemma unit_draws_half : unit_draws Scenario.half_world.
Proof. intro k. simpl. repeat split; discriminate || reflexivity. Qed.

(** C3: for every length [L > 0], every trajectory [random_data] returns,
    on a valid model as on any other, has exactly [L] observations and
    [L] states, and each state is below [n_states]. *)
Theorem random_data_lengths_and_state_range
  (m : Model) (L : Z) (noise : bool) (w : World)
  (obs : list ndarray) (seq : list nat) (dw : list (list nat)) (w' : World) :
  (0 < L)%Z ->
  random_data m L noise w = Ok ((obs, seq, dw), w') ->
  Z.of_nat (length obs) = L /\ Z.of_nat (length seq) = L /\
  Forall (fun s => s < n_states m) seq.
Proof.
  intros HL H.
  apply random_data_Ok in H. destruct H as (v & Hr & -> & -> & ->).
  apply random_data_run_shape in Hr. destruct Hr as (Hd & Hs & Hall & _).
  rewrite Hd, Hs. repeat split; try lia. exact Hall.
Qed.

Lemma random_data_lengths_and_state_range_witness :
  exists obs seq dw w',
    random_data Scenario.alternating 4 true Scenario.half_world
      = Ok ((obs, seq, dw), w') /\
    Z.of_nat (length obs) = 4%Z /\ Z.of_nat (length seq) = 4%Z /\
    Forall (fun s => s < 2) seq.
Proof.
  destruct (random_data Scenario.alternating 4 true Scenario.half_world)
    as [[[[obs seq] dw] w']|e] eqn:E.
  - exists obs, seq, dw, w'. split; [reflexivity|].
    apply (random_data_lengths_and_state_range
             Scenario.alternating 4 true Scenario.half_world obs seq dw w').
    + lia.
    + exact E.
  - vm_compute in E. discriminate E.
Defined.

(** ** TrajectorySimulator: emissions pass through when noise is off *)

Lemma Forall2_snoc A B (R : A -> B -> Prop) l1 l2 a b :
  Forall2 R l1 l2 -> R a b -> Forall2 R (l1 ++ [a]) (l2 ++ [b]).
Proof.
  intros Hl Hab. induction Hl; simpl; repeat constructor; auto.
Qed.

Lemma Forall2_nth_error A B (R : A -> B -> Prop) l1 l2 :
  Forall2 R l1 l2 ->
  forall i b, nth_error l2 i = Some b ->
    exists a, nth_error l1 i = Some a /\ R a b.
Proof.
  induction 1 as [|a0 b0 l1 l2 HR _ IH]; intros [|i] b H; simpl in *;
    try discriminate.
  - inv H. eauto.
  - eauto.
Qed.

Lemma random_data_run_noiseless m L w v w' :
  random_data_run m L false w = Ok (v, w') ->
  Forall2 (fun d s => getitem (emissions m) s = Ok d) (data v) (state_seq v).
Proof.
  unfold random_data_run. intro H.
  apply bind_Ok in H. destruct H as (s0 & w1 & _ & H).
  pose proof (iterate_Ok_ind
    (fun _ v _ => Forall2 (fun d s => getitem (emissions m) s = Ok d)
                    (data v) (state_seq v))
    (step m false)) as Hind.
  simpl in Hind.
  eapply (fun Hs => Hind Hs (Z.to_nat L) 0); [| |exact H].
  - intros _ v0 w0 v1 w2 HP Hb.
    apply step_Ok in Hb.
    destruct Hb as (datum0 & datum & row & w3 & Hg & [-> _] & _ & _ & Hd & Hs & _).
    rewrite Hd, Hs. apply Forall2_snoc; assumption.
  - simpl. constructor.
Qed.

(** C8: with noise disabled, for every length [L > 0], in every
    trajectory [random_data] returns the observation of each step [i] is
    the row of [emissions] indexed by the state of step [i], unchanged,
    and there are [L] of each. *)
Theorem random_data_noiseless_rows
  (m : Model) (L : Z) (w : World)
  (obs : list ndarray) (seq : list nat) (dw : list (list nat)) (w' : World) :
  (0 < L)%Z ->
  random_data m L false w = Ok ((obs, seq, dw), w') ->
  Z.of_nat (length obs) = L /\ Z.of_nat (length seq) = L /\
  forall i s, nth_error seq i = Some s ->
    exists d, nth_error obs i = Some d /\ getitem (emissions m) s = Ok d.
Proof.
  intros HL H.
  apply random_data_Ok in H. destruct H as (v & Hr & -> & -> & ->).
  pose proof (random_data_run_shape _ _ _ _ _ _ Hr) as (Hd & Hs & _ & _).
  rewrite Hd, Hs. repeat split; try lia.
  apply Forall2_nth_error. eapply random_data_run_noiseless; eauto.
Qed.

Lemma random_data_noiseless_rows_witness :
  exists obs seq dw w',
    random_data Scenario.alternating 4 false Scenario.half_world
      = Ok ((obs, seq, dw), w') /\
    forall i s, nth_error seq i = Some s ->
      exists d, nth_error obs i = Some d /\
                getitem (emissions Scenario.alternating) s = Ok d.
Proof.
  destruct (random_data Scenario.alternating 4 false Scenario.half_world)
    as [[[[obs seq] dw] w']|e] eqn:E.
  - exists obs, seq, dw, w'. split; [reflexivity|].
    apply (random_data_noiseless_rows
             Scenario.alternating 4 Scenario.half_world obs seq dw w').
    + lia.
    + exact E.
  - vm_compute in E. discriminate E.
Defined.

(** ** TrajectorySimulator: non-positive lengths *)




(** ** TrajectorySimulator: chains that do not depend on the draws *)

(** A first weight of one takes every draw below one. *)
Lemma weighted_choice_first A (c : A) cs rest w :
  (py_tape w (py_pos w) < 1)%Q ->
  weighted_choice (c :: cs) (Fin 1 :: rest) w = Ok (c, tick w).
Proof.
  intro H. rewrite weighted_choice_unfold. simpl.
  apply Qltb_lt in H. rewrite H. reflexivity.
Qed.

(** Weights [0, 1, ...] send every draw in [[0, 1)] to the second
    outcome. *)
Lemma weighted_choice_second A (c0 c1 : A) cs rest w :
  (0 <= py_tape w (py_pos w))%Q -> (py_tape w (py_pos w) < 1)%Q ->
  weighted_choice (c0 :: c1 :: cs) (Fin 0 :: Fin 1 :: rest) w
  = Ok (c1, tick w).
Proof.
  intros H0 H1. rewrite weighted_choice_unfold. simpl.
  assert (E0 : Qltb (py_tape w (py_pos w)) 0 = false)
    by (apply Qltb_ge; exact H0).
  assert (E1 : Qltb (py_tape w (py_pos w) - 0) 1 = true)
    by (apply Qltb_lt; lra).
  rewrite E0, E1. reflexivity.
Qed.

(** A noiseless pass, once the three lookups of the body are known. *)
Lemma step_eval m v w datum row s' :
  getitem (emissions m) (state v) = Ok datum ->
  index (trans_prob m) (state v) = Ok row ->
  weighted_choice (xrange (n_states m)) row w = Ok (s', tick w) ->
  step m false v w =
  if negb (s' =? state v)
  then match append_at (dwells v) (state v) (dwell v) with
       | Ok dw => Ok (mkLocals s' 1 (data v ++ [datum])
                               (state_seq v ++ [state v]) dw, tick w)
       | Raise e => Raise e
       end
  else Ok (mkLocals s' (dwell v + 1) (data v ++ [datum])
                    (state_seq v ++ [state v]) (dwells v), tick w).
Proof.
  intros Hg Hr Hc. unfold step, bind, lift, ret.
  rewrite Hg, Hr, Hc.
  destruct (negb (s' =? state v)); [|reflexivity].
  destruct (append_at _ _ _); reflexivity.
Qed.

Lemma iterate_S n body v w :
  iterate (S n) body v w =
  match body v w with
  | Ok (v', w') => iterate n body v' w'
  | Raise e => Raise e
  end.
Proof. reflexivity. Qed.

(** The alternating chain leaves state [0] for state [1] and back. *)
Lemma step_alternating_0 w dwell data state_seq dwells :
  unit_draws w ->
  step Scenario.alternating false (mkLocals 0 dwell data state_seq dwells) w =
  match append_at dwells 0 dwell with
  | Ok dw => Ok (mkLocals 1 1 (data ++ [Scenario.row_a]) (state_seq ++ [0]) dw,
                 tick w)
  | Raise e => Raise e
  end.
Proof.
  intro Hw. destruct (Hw (py_pos w)) as [[H0 H1] _].
  rewrite (step_eval _ _ _ Scenario.row_a [Fin 0; Fin 1] 1);
    [reflexivity | reflexivity | reflexivity |].
  apply (weighted_choice_second nat 0 1 [] [] w H0 H1).
Qed.

Lemma step_alternating_1 w dwell data state_seq dwells :
  unit_draws w ->
  step Scenario.alternating false (mkLocals 1 dwell data state_seq dwells) w =
  match append_at dwells 1 dwell with
  | Ok dw => Ok (mkLocals 0 1 (data ++ [Scenario.row_b]) (state_seq ++ [1]) dw,
                 tick w)
  | Raise e => Raise e
  end.
Proof.
  intro Hw. destruct (Hw (py_pos w)) as [[H0 H1] _].
  rewrite (step_eval _ _ _ Scenario.row_b [Fin 1; Fin 0] 0);
    [reflexivity | reflexivity | reflexivity |].
  apply (weighted_choice_first nat 0 [1] [Fin 0] w H1).
Qed.

(** What [random_data] returns in the alternating scenario, whatever the
    draws in [[0, 1)] are. *)
Lemma random_data_alternating_4 w :
  unit_draws w ->
  random_data Scenario.alternating 4 false w =
  Ok (([Scenario.row_a; Scenario.row_b; Scenario.row_a; Scenario.row_b],
       [0; 1; 0; 1], [[0; 1]; [1; 1]]),
      tick (tick (tick (tick (tick w))))).
Proof.
  intro Hw.
  pose proof (unit_draws_tick _ Hw) as Hw1.
  pose proof (unit_draws_tick _ Hw1) as Hw2.
  pose proof (unit_draws_tick _ Hw2) as Hw3.
  pose proof (unit_draws_tick _ Hw3) as Hw4.
  destruct (Hw (py_pos w)) as [[_ H1] _].
  unfold random_data, random_data_run, bind at 1 2.
  change (xrange (n_states Scenario.alternating)) with [0; 1].
  change (start_prob Scenario.alternating) with [Fin 1; Fin 0].
  rewrite (weighted_choice_first nat 0 [1] [Fin 0] w H1).
  change (Z.to_nat 4) with 4.
  rewrite iterate_S, step_alternating_0 by assumption.
  cbn [append_at app map seq n_states Scenario.alternating].
  rewrite iterate_S, step_alternating_1 by assumption. cbn [append_at app].
  rewrite iterate_S, step_alternating_0 by assumption. cbn [append_at app].
  rewrite iterate_S, step_alternating_1 by assumption. cbn [append_at app].
  reflexivity.
Qed.

(** C2 (as amended): in the alternating scenario with [L = 4] and no
    noise, for all draws in [[0, 1)], [random_data] returns the states
    [[0, 1, 0, 1]], the observations [[10, 0], [0, 20], [10, 0], [0, 20]]
    and two dwell entries per state: the transition drawn in the last pass
    closes the last run, so [dwells[1]] is [[1, 1]], and [dwells[0]] holds
    an entry for its first run followed by [1]. *)
Theorem random_data_alternating_scenario (w : World) :
  unit_draws w ->
  exists d w',
    random_data Scenario.alternating 4 false w =
    Ok (([mkArray [2] [10%Q; 0%Q]; mkArray [2] [0%Q; 20%Q];
          mkArray [2] [10%Q; 0%Q]; mkArray [2] [0%Q; 20%Q]],
         [0; 1; 0; 1], [[d; 1]; [1; 1]]), w').
Proof.
  intro Hw. eexists _, _. apply random_data_alternating_4. exact Hw.
Qed.

Lemma random_data_alternating_scenario_witness :
  exists d w',
    random_data Scenario.alternating 4 false Scenario.half_world =
    Ok (([mkArray [2] [10%Q; 0%Q]; mkArray [2] [0%Q; 20%Q];
          mkArray [2] [10%Q; 0%Q]; mkArray [2] [0%Q; 20%Q]],
         [0; 1; 0; 1], [[d; 1]; [1; 1]]), w').
Proof.
  apply (random_data_alternating_scenario Scenario.half_world).
  exact unit_draws_half.
Defined.

(** C2 (counterexample): the dwell lists of the scenario are
    [[0, 1]] and [[1, 1]], not [[1]] and [[1]]. *)
Lemma random_data_alternating_dwells_differ :
  outcome (random_data Scenario.alternating 4 false Scenario.half_world)
  = Ok ([Scenario.row_a; Scenario.row_b; Scenario.row_a; Scenario.row_b],
        [0; 1; 0; 1], [[0; 1]; [1; 1]]) /\
  [[0; 1]; [1; 1]] <> [[1]; [1]].
Proof.
  split; [reflexivity | discriminate].
Qed.

(** While state [0] keeps itself with weight one, every pass appends state
    [0] and its emission row, adds one to the counter and leaves the dwell
    lists alone. *)
Lemma iterate_absorbing m row0 rest :
  1 <= n_states m ->
  getitem (emissions m) 0 = Ok row0 ->
  nth_error (trans_prob m) 0 = Some (Fin 1 :: rest) ->
  forall n v w,
    unit_draws w -> state v = 0 ->
    exists w',
      iterate n (step m false) v w =
      Ok (mkLocals 0 (dwell v + n) (data v ++ repeat row0 n)
                   (state_seq v ++ repeat 0 n) (dwells v), w').
Proof.
  intros Hn Hg Hrow. induction n as [|n IH]; intros v w Hw Hst.
  - exists w. destruct v as [s d da sq dw]. simpl in *. subst s.
    rewrite Nat.add_0_r, !app_nil_r. reflexivity.
  - destruct (Hw (py_pos w)) as [[_ H1] _].
    rewrite iterate_S.
    rewrite (step_eval m v w row0 (Fin 1 :: rest) 0).
    + rewrite Hst. simpl negb. cbv iota.
      destruct (IH (mkLocals 0 (dwell v + 1) (data v ++ [row0])
                     (state_seq v ++ [0]) (dwells v)) (tick w)) as [w' Hit].
      * apply unit_draws_tick. exact Hw.
      * reflexivity.
      * exists w'. rewrite Hit. simpl.
        rewrite <- !app_assoc. simpl.
        replace (dwell v + 1 + n) with (dwell v + S n) by lia. reflexivity.
    + rewrite Hst. exact Hg.
    + rewrite Hst. unfold index. rewrite Hrow. reflexivity.
    + unfold xrange. destruct (n_states m) as [|k]; [lia|]. simpl.
      apply weighted_choice_first. exact H1.
Qed.

(** C5: a two-state model that starts in state [0] and keeps it with
    weight one, simulated for [L = 5] steps without noise, stays in state
    [0] five times and leaves both dwell lists empty: the run still open
    when the loop ends is not recorded. *)
Theorem random_data_absorbing_state_never_flushed
  (m : Model) (row0 : ndarray) (rest : list pyfloat) (w : World) :
  n_states m = 2 ->
  start_prob m = [Fin 1; Fin 0] ->
  nth_error (trans_prob m) 0 = Some (Fin 1 :: rest) ->
  getitem (emissions m) 0 = Ok row0 ->
  unit_draws w ->
  exists w',
    random_data m 5 false w =
    Ok (([row0; row0; row0; row0; row0], [0; 0; 0; 0; 0], [[]; []]), w').
Proof.
  intros Hn Hstart Hrow Hg Hw.
  destruct (Hw (py_pos w)) as [[_ H1] _].
  unfold random_data, random_data_run, bind at 1 2.
  rewrite Hn, Hstart.
  change (xrange 2) with [0; 1].
  rewrite (weighted_choice_first nat 0 [1] [Fin 0] w H1).
  destruct (iterate_absorbing m row0 rest) with
    (n := Z.to_nat 5)
    (v := mkLocals 0 0 [] [] (map (fun _ : nat => @nil nat) (seq 0 2)))
    (w := tick w) as [w' Hit].
  - lia.
  - exact Hg.
  - exact Hrow.
  - apply unit_draws_tick. exact Hw.
  - reflexivity.
  - exists w'. rewrite Hit. reflexivity.
Qed.

Lemma random_data_absorbing_state_never_flushed_witness :
  exists w',
    random_data Scenario.absorbing 5 false Scenario.half_world =
    Ok (([mkArray [1] [342%Q]; mkArray [1] [342%Q]; mkArray [1] [342%Q];
          mkArray [1] [342%Q]; mkArray [1] [342%Q]],
         [0; 0; 0; 0; 0], [[]; []]), w').
Proof.
  apply (random_data_absorbing_state_never_flushed
           Scenario.absorbing (mkArray [1] [342%Q]) [Fin 0] Scenario.half_world).
  - reflexivity.
  - reflexivity.
  - reflexivity.
  - reflexivity.
  - exact unit_draws_half.
Defined.

(** ** Dwell accounting *)

Lemma runs_from_not_nil s k l : runs_from s k l <> [].
Proof.
  revert s k. induction l as [|a l IH]; intros s k; simpl; [discriminate|].
  destruct (a =? s); [apply IH | discriminate].
Qed.

(** [runs] is a run-length encoding: expanding it gives the chain back. *)
Lemma expand_runs_from s k l : expand (runs_from s k l) = repeat s k ++ l.
Proof.
  revert s k. induction l as [|a l IH]; intros s k; simpl.
  - unfold expand. simpl. reflexivity.
  - destruct (a =? s) eqn:E.
    + apply Nat.eqb_eq in E. subst a. rewrite IH.
      change (s :: l) with ([s] ++ l). rewrite app_assoc.
      rewrite <- repeat_cons. reflexivity.
    + unfold expand in *. simpl. rewrite IH. reflexivity.
Qed.

Lemma expand_runs l : expand (runs l) = l.
Proof.
  destruct l as [|s l]; [reflexivity|]. simpl.
  rewrite expand_runs_from. reflexivity.
Qed.

(** Neighbouring runs are in different states, and no run is empty. *)
Lemma runs_from_maximal s k l :
  1 <= k ->
  Forall (fun r => 1 <= snd r) (runs_from s k l) /\
  (forall pre r1 r2 post,
     runs_from s k l = pre ++ r1 :: r2 :: post -> fst r1 <> fst r2) /\
  (exists c rest, runs_from s k l = (s, c) :: rest).
Proof.
  revert s k. induction l as [|a l IH]; intros s k Hk; simpl.
  - split; [repeat constructor; exact Hk|]. split; [|eauto].
    intros [|p [|q pre]] r1 r2 post H; discriminate.
  - destruct (a =? s) eqn:E.
    + apply IH. lia.
    + destruct (IH a 1 (le_n 1)) as (Hpos & Hadj & c & rest & Hhd).
      split; [constructor; [exact Hk | exact Hpos]|]. split; [|eauto].
      intros [|p pre] r1 r2 post H.
      * simpl in H. rewrite Hhd in H. inv H. simpl.
        apply Nat.eqb_neq in E. auto.
      * simpl in H. inv H. eapply Hadj; eauto.
Qed.

Lemma runs_maximal chain :
  expand (runs chain) = chain /\
  Forall (fun r => 1 <= snd r) (runs chain) /\
  (forall pre r1 r2 post,
     runs chain = pre ++ r1 :: r2 :: post -> fst r1 <> fst r2).
Proof.
  split; [apply expand_runs|]. destruct chain as [|s l]; simpl.
  - split; [constructor|]. intros [|p pre] r1 r2 post H; discriminate.
  - destruct (runs_from_maximal s 1 l (le_n 1)) as (H1 & H2 & _). auto.
Qed.

(** Adding one state at the end of a chain lengthens the last run or
    opens a new one. *)
Lemma runs_from_snoc l : forall s k comp u c s',
  runs_from s k l = comp ++ [(u, c)] ->
  runs_from s k (l ++ [s']) =
  comp ++ (if s' =? u then [(u, S c)] else [(u, c); (s', 1)]).
Proof.
  induction l as [|a l IH]; intros s k comp u c s' H; simpl in *.
  - change [(s, k)] with ([] ++ [(s, k)]) in H.
    apply app_inj_tail in H. destruct H as [<- H]. inv H.
    simpl. destruct (s' =? u); reflexivity.
  - destruct (a =? s).
    + apply IH. exact H.
    + destruct comp as [|x comp].
      * simpl in H. inv H. exfalso. eapply runs_from_not_nil; eauto.
      * simpl in H. inv H. simpl. f_equal. apply IH. assumption.
Qed.

Lemma runs_snoc chain comp u c s' :
  runs chain = comp ++ [(u, c)] ->
  runs (chain ++ [s']) =
  comp ++ (if s' =? u then [(u, S c)] else [(u, c); (s', 1)]).
Proof.
  destruct chain as [|a l]; simpl; intro H.
  - destruct comp; discriminate.
  - apply runs_from_snoc. exact H.
Qed.

(** [dwells[s].append(d)] on the lists of the runs [rs] gives the lists
    of [rs] followed by a run of [d] steps in [s]. *)
Lemma append_at_runs rs d : forall n a s,
  s < n ->
  append_at (map (fun t => map snd (filter (fun r => fst r =? t) rs)) (seq a n))
            s d =
  Ok (map (fun t => map snd (filter (fun r => fst r =? t) (rs ++ [(a + s, d)])))
          (seq a n)).
Proof.
  induction n as [|n IH]; intros a s Hs; [lia|].
  simpl seq. simpl map. destruct s as [|j].
  - simpl append_at. f_equal. f_equal.
    + rewrite filter_app, map_app. simpl.
      rewrite Nat.add_0_r, Nat.eqb_refl. reflexivity.
    + apply map_ext_in. intros t Ht. apply in_seq in Ht.
      rewrite filter_app, map_app. simpl.
      replace (a + 0 =? t) with false by (symmetry; apply Nat.eqb_neq; lia).
      simpl. rewrite app_nil_r. reflexivity.
  - simpl append_at. rewrite (IH (S a) j) by lia.
    f_equal. f_equal.
    + rewrite filter_app, map_app. simpl.
      replace (a + S j =? a) with false by (symmetry; apply Nat.eqb_neq; lia).
      simpl. rewrite app_nil_r. reflexivity.
    + replace (S a + j) with (a + S j) by lia. reflexivity.
Qed.

Lemma append_at_dwells_of n rs s d :
  s < n ->
  append_at (dwells_of n rs) s d = Ok (dwells_of n (rs ++ [(s, d)])).
Proof.
  intro Hs. unfold dwells_of. rewrite (append_at_runs rs d n 0 s Hs).
  reflexivity.
Qed.

(** The loop invariant of the dwell bookkeeping: the counter is the
    length of the open run, less one while that run is the first. *)
Lemma step_dwells m noise v w v' w' :
  (state v < n_states m /\
   exists comp cur,
     runs (state_seq v ++ [state v]) = comp ++ [(state v, cur)] /\
     1 <= cur /\
     dwells v = dwells_of (n_states m) (first_short comp) /\
     dwell v = match comp with [] => pred cur | _ => cur end) ->
  step m noise v w = Ok (v', w') ->
  state v' < n_states m /\
  exists comp cur,
    runs (state_seq v' ++ [state v']) = comp ++ [(state v', cur)] /\
    1 <= cur /\
    dwells v' = dwells_of (n_states m) (first_short comp) /\
    dwell v' = match comp with [] => pred cur | _ => cur end.
Proof.
  intros (Hst & comp & cur & Hruns & Hcur & Hdw & Hd) H.
  apply step_Ok in H.
  destruct H as (datum0 & datum & row & w1 & _ & _ & _ & Hc & _ & Hs & Hbook).
  apply weighted_choice_In in Hc. destruct Hc as [Hin _].
  unfold xrange in Hin. apply in_seq in Hin.
  split; [lia|].
  rewrite Hs. rewrite (runs_snoc _ comp (state v) cur (state v') Hruns).
  destruct (state v' =? state v) eqn:E.
  - apply Nat.eqb_eq in E. destruct Hbook as [Hd' Hdw'].
    exists comp, (S cur). rewrite E.
    split; [reflexivity|]. split; [lia|]. split; [congruence|].
    rewrite Hd', Hd. destruct comp; lia.
  - destruct Hbook as [Hd' Ha].
    exists (comp ++ [(state v, cur)]), 1.
    split; [rewrite <- app_assoc; reflexivity|]. split; [lia|].
    rewrite Hdw, (append_at_dwells_of _ _ _ _ Hst) in Ha. inv Ha.
    split.
    + f_equal. destruct comp as [|[s k] comp]; simpl; rewrite Hd; reflexivity.
    + rewrite Hd'. destruct comp; reflexivity.
Qed.

(** C10: in every trajectory [random_data] returns, the dwell list of
    each state holds, in order, the lengths of the completed runs of the
    chain in that state (the runs the chain has left, the state drawn in
    the last pass included), except that the first completed run is
    booked with its length minus one. *)
Theorem random_data_dwells_first_run_short
  (m : Model) (L : Z) (noise : bool) (w : World) (v : Locals) (w' : World) :
  random_data_run m L noise w = Ok (v, w') ->
  random_data m L noise w = Ok ((data v, state_seq v, dwells v), w') /\
  dwells v =
  dwells_of (n_states m)
            (first_short (completed_runs (state_seq v ++ [state v]))).
Proof.
  intro H. split.
  { unfold random_data, bind. rewrite H. reflexivity. }
  unfold random_data_run in H.
  apply bind_Ok in H. destruct H as (s0 & w1 & Hc & H).
  apply weighted_choice_In in Hc. destruct Hc as [Hin _].
  unfold xrange in Hin. apply in_seq in Hin.
  pose proof (iterate_Ok_ind
    (fun _ v _ =>
       state v < n_states m /\
       exists comp cur,
         runs (state_seq v ++ [state v]) = comp ++ [(state v, cur)] /\
         1 <= cur /\
         dwells v = dwells_of (n_states m) (first_short comp) /\
         dwell v = match comp with [] => pred cur | _ => cur end)
    (step m noise)) as Hind.
  simpl in Hind.
  assert (Hfin : state v < n_states m /\
       exists comp cur,
         runs (state_seq v ++ [state v]) = comp ++ [(state v, cur)] /\
         1 <= cur /\
         dwells v = dwells_of (n_states m) (first_short comp) /\
         dwell v = match comp with [] => pred cur | _ => cur end).
  { eapply (fun Hs => Hind Hs (Z.to_nat L) 0); [| |exact H].
    - intros _ v0 w0 v1 w2 HP Hb. eapply step_dwells; eauto.
    - simpl. split; [lia|]. exists [], 1. repeat split; auto. }
  destruct Hfin as (_ & comp & cur & Hruns & _ & Hdw & _).
  unfold completed_runs. rewrite Hruns, removelast_last. exact Hdw.
Qed.

Lemma random_data_dwells_first_run_short_witness :
  exists v w',
    random_data_run Scenario.uniform2 5 false Scenario.pattern_world
      = Ok (v, w') /\
    dwells v =
      dwells_of 2 (first_short (completed_runs (state_seq v ++ [state v]))) /\
    state_seq v = [0; 0; 1; 1; 1] /\ state v = 0 /\
    dwells v = [[1]; [3]].
Proof.
  destruct (random_data_run Scenario.uniform2 5 false Scenario.pattern_world)
    as [[v w']|e] eqn:E.
  - exists v, w'. split; [reflexivity|]. split.
    + apply (random_data_dwells_first_run_short
               Scenario.uniform2 5 false Scenario.pattern_world v w' E).
    + vm_compute in E. inversion E. repeat split; reflexivity.
  - vm_compute in E. discriminate E.
Defined.

(** ** ModelFactory: shapes *)

Lemma setitem_total A (t : list A) i v :
  i < length t ->
  exists t', setitem t i v = Ok t' /\ length t' = length t /\ In v t' /\
    forall P : A -> Prop, Forall P t -> P v -> Forall P t'.
Proof.
  revert i. induction t as [|x t IH]; intros i Hi; simpl in *; [lia|].
  destruct i as [|j].
  - exists (v :: t). repeat split; [now left|].
    intros P Ht Hv. inversion Ht; subst. constructor; assumption.
  - destruct (IH j) as (t' & Ht' & Hl & Hin & Hall); [lia|].
    rewrite Ht'. exists (x :: t'). simpl.
    repeat split; [lia | now right |].
    intros P Ht Hv. inversion Ht; subst. constructor; auto.
Qed.

(** The row built for state [i < n] has [n] entries, and building it
    never raises. *)
Lemma transition_row_total n i w :
  i < n ->
  exists t,
    setitem (map (Qmult (py_tape w (py_pos w)))
                 (map (fun k => np_sample w (np_pos w + k)) (seq 0 n)))
            i (py_tape w (py_pos w)) = Ok t /\
    length t = n /\
    transition_row n i w = Ok (normalize t, np_advance n (tick w)).
Proof.
  intro Hi.
  destruct (setitem_total Q
              (map (Qmult (py_tape w (py_pos w)))
                   (map (fun k => np_sample w (np_pos w + k)) (seq 0 n)))
              i (py_tape w (py_pos w))) as (t & Ht & Hl & _).
  { rewrite !length_map, length_seq. exact Hi. }
  exists t. split; [exact Ht|]. split.
  - rewrite Hl, !length_map, length_seq. reflexivity.
  - unfold transition_row, bind, random, random_sample, lift. simpl.
    rewrite Ht. reflexivity.
Qed.

Lemma transition_rows_total n todo :
  Forall (fun i => i < n) todo ->
  forall acc w,
    exists rows w',
      transition_rows n todo acc w = Ok (acc ++ rows, w') /\
      length rows = length todo /\
      Forall (fun t => length t = n) rows.
Proof.
  induction 1 as [|i todo Hi _ IH]; intros acc w; simpl.
  - exists [], w. rewrite app_nil_r. repeat split. constructor.
  - destruct (transition_row_total n i w Hi) as (t & _ & Hl & Hrow).
    unfold bind. rewrite Hrow.
    destruct (IH (acc ++ [normalize t]) (np_advance n (tick w)))
      as (rows & w' & Hrows & Hlen & Hall).
    exists (normalize t :: rows), w'. rewrite Hrows, <- app_assoc.
    repeat split; simpl; [lia|].
    constructor; [|exact Hall]. unfold normalize. rewrite length_map. exact Hl.
Qed.

Lemma xrange_below n : Forall (fun i => i < n) (xrange n).
Proof.
  apply Forall_forall. intros i Hi. unfold xrange in Hi.
  apply in_seq in Hi. lia.
Qed.

(** From a matrix on, the factory cannot raise. *)
Lemma random_model_from_matrix r c fl w :
  exists start_prob transition_prob w',
    random_model_from_emissions (mkArray [r; c] fl) w =
    Ok (mkModel r c start_prob transition_prob (mkArray [r; c] fl), w') /\
    length start_prob = r /\ length transition_prob = r /\
    Forall (fun t => length t = r) transition_prob.
Proof.
  unfold random_model_from_emissions. simpl.
  destruct (transition_rows_total r (xrange r) (xrange_below r) []
              (np_advance r w)) as (rows & w' & Hrows & Hlen & Hall).
  unfold bind, ret, lift, random_sample. simpl. rewrite Hrows. simpl.
  eexists _, _, _. split; [reflexivity|].
  unfold normalize. rewrite !length_map, length_seq.
  unfold xrange in Hlen. rewrite length_seq in Hlen. auto.
Qed.

(** C7 (as amended): [random_model_from_emissions] checks no dimension.
    A vector of [n] entries, [n = 0] included, is reshaped to [(n, 1)]
    and gives a model of [n] states; a matrix of shape [(r, c)], with
    [r = 0] or [c = 0] included, gives a model of [r] states and [c]
    observables; only an array of another rank fails, with the
    [ValueError] of the tuple assignment. *)
Theorem random_model_from_emissions_checks_no_dimension
  (e : ndarray) (w : World) :
  wf_array e ->
  match shape e with
  | [n] =>
      exists m w', random_model_from_emissions e w = Ok (m, w') /\
        n_states m = n /\ n_obs m = 1 /\
        emissions m = mkArray [n; 1] (flat e) /\
        length (start_prob m) = n /\ length (trans_prob m) = n
  | [r; c] =>
      exists m w', random_model_from_emissions e w = Ok (m, w') /\
        n_states m = r /\ n_obs m = c /\ emissions m = e /\
        length (start_prob m) = r /\ length (trans_prob m) = r
  | _ => random_model_from_emissions e w = Raise ValueError
  end.
Proof.
  intro Hwf. destruct e as [sh fl]. unfold wf_array in Hwf. simpl in *.
  destruct sh as [|n [|c [|d rest]]]; try reflexivity.
  - destruct (random_model_from_matrix n 1 fl w)
      as (sp & tp & w' & Hm & Hs & Ht & _).
    exists (mkModel n 1 sp tp (mkArray [n; 1] fl)), w'.
    split; [|simpl; auto].
    rewrite <- Hm. unfold random_model_from_emissions.
    cbn [shape flat length Nat.eqb]. unfold reshape, len.
    cbn [shape flat hd].
    replace (size_of [n; 1] =? length fl) with true
      by (symmetry; apply Nat.eqb_eq; simpl in *; lia).
    reflexivity.
  - destruct (random_model_from_matrix n c fl w)
      as (sp & tp & w' & Hm & Hs & Ht & _).
    exists (mkModel n c sp tp (mkArray [n; c] fl)), w'.
    split; [exact Hm | simpl; auto].
Qed.

Lemma random_model_from_emissions_checks_no_dimension_witness :
  exists m w',
    random_model_from_emissions (mkArray [0; 3] []) Scenario.half_world
      = Ok (m, w') /\
    n_states m = 0 /\ n_obs m = 3 /\ emissions m = mkArray [0; 3] [] /\
    length (start_prob m) = 0 /\ length (trans_prob m) = 0.
Proof.
  apply (random_model_from_emissions_checks_no_dimension
           (mkArray [0; 3] []) Scenario.half_world).
  reflexivity.
Defined.

(** C7 (counterexample): a matrix without rows, a matrix without columns
    and an empty vector are all accepted. *)
Lemma random_model_from_emissions_accepts_empty :
  outcome (random_model_from_emissions (mkArray [0; 3] []) Scenario.half_world)
    = Ok (mkModel 0 3 [] [] (mkArray [0; 3] [])) /\
  (exists m,
     outcome (random_model_from_emissions (mkArray [2; 0] []) Scenario.half_world)
       = Ok m /\ n_states m = 2 /\ n_obs m = 0) /\
  outcome (random_model_from_emissions (mkArray [0] []) Scenario.half_world)
    = Ok (mkModel 0 1 [] [] (mkArray [0; 1] [])).
Proof.
  split; [reflexivity|]. split; [|reflexivity].
  eexists. split; [vm_compute; reflexivity|]. split; reflexivity.
Qed.

(** ** ModelFactory: normalisation *)

Lemma Qsum_cons x l : Qsum (x :: l) = (x + Qsum l)%Q.
Proof. reflexivity. Qed.

Lemma Qsum_nonneg l : Forall (fun x => (0 <= x)%Q) l -> (0 <= Qsum l)%Q.
Proof.
  induction 1 as [|x l Hx _ IH]; [unfold Qsum; simpl; lra|].
  rewrite Qsum_cons. lra.
Qed.

Lemma Qsum_ge_In l x :
  Forall (fun x => (0 <= x)%Q) l -> In x l -> (x <= Qsum l)%Q.
Proof.
  induction 1 as [|y l Hy Hl IH]; intro Hin; [contradiction|].
  rewrite Qsum_cons. pose proof (Qsum_nonneg l Hl).
  destruct Hin as [->|Hin]; [lra|]. specialize (IH Hin). lra.
Qed.

Lemma Qsum_pos l :
  l <> [] -> Forall (fun x => (0 < x)%Q) l -> (0 < Qsum l)%Q.
Proof.
  intros Hne H. destruct H as [|x l Hx Hl]; [congruence|].
  rewrite Qsum_cons.
  assert (0 <= Qsum l)%Q.
  { apply Qsum_nonneg. eapply Forall_impl; [|exact Hl].
    simpl. intros a Ha. lra. }
  lra.
Qed.

Lemma fdiv_finite x s : ~ (s == 0)%Q -> fdiv x s = Fin (x / s).
Proof.
  intro Hs. unfold fdiv. destruct (Qeq_bool s 0) eqn:E; [|reflexivity].
  apply Qeq_bool_iff in E. contradiction.
Qed.

Lemma fsum_scaled s l :
  ~ (s == 0)%Q -> (fsum (map (fun x => Fin (x / s)) l) == Qsum l / s)%Q.
Proof.
  intro Hs. induction l as [|x l IH].
  - unfold fsum, Qsum. simpl. field. exact Hs.
  - simpl map. rewrite fsum_cons, Qsum_cons, IH. simpl. field. exact Hs.
Qed.

(** In exact arithmetic, dividing non-negative numbers by their sum gives
    weights that sum to one, as long as the sum is not zero. *)
Lemma normalize_distribution v :
  Forall (fun x => (0 <= x)%Q) v -> (0 < Qsum v)%Q ->
  distribution (length v) (normalize v).
Proof.
  intros Hv Hs. assert (Hne : ~ (Qsum v == 0)%Q) by lra.
  unfold normalize.
  rewrite (map_ext _ (fun x => Fin (x / Qsum v)))
    by (intro x; apply fdiv_finite; exact Hne).
  split; [apply length_map|]. split.
  - apply Forall_map. eapply Forall_impl; [|exact Hv].
    simpl. intros x Hx. apply Qle_shift_div_l; [exact Hs | lra].
  - assert (Hone : (fsum (map (fun x => Fin (x / Qsum v)) v) == 1)%Q).
    { rewrite (fsum_scaled _ _ Hne). field. exact Hne. }
    rewrite Hone. split; vm_compute; discriminate.
Qed.

Lemma transition_row_distribution n i w :
  i < n -> unit_draws w -> positive_draws w ->
  exists t, transition_row n i w = Ok (t, np_advance n (tick w)) /\
            distribution n t.
Proof.
  intros Hi Hu Hp.
  destruct (transition_row_total n i w Hi) as (t & Ht & Hl & Hrow).
  exists (normalize t). split; [exact Hrow|].
  destruct (setitem_total Q
              (map (Qmult (py_tape w (py_pos w)))
                   (map (fun k => np_sample w (np_pos w + k)) (seq 0 n)))
              i (py_tape w (py_pos w))) as (t' & Ht' & _ & Hin & Hall).
  { rewrite !length_map, length_seq. exact Hi. }
  rewrite Ht in Ht'. injection Ht' as Heq. subst t'.
  destruct (Hp (py_pos w)) as [Hstay _].
  assert (Hnn : Forall (fun x => (0 <= x)%Q) t).
  { apply Hall; [|lra].
    apply Forall_map, Forall_map, Forall_forall. intros k _.
    destruct (Hu (np_pos w + k)) as [_ [H0 _]].
    apply Qmult_le_0_compat; lra. }
  rewrite <- Hl. apply normalize_distribution; [exact Hnn|].
  pose proof (Qsum_ge_In t _ Hnn Hin). lra.
Qed.

Lemma transition_rows_distribution n todo :
  Forall (fun i => i < n) todo ->
  forall acc w, unit_draws w -> positive_draws w ->
    exists rows w',
      transition_rows n todo acc w = Ok (acc ++ rows, w') /\
      length rows = length todo /\
      Forall (distribution n) rows.
Proof.
  induction 1 as [|i todo Hi _ IH]; intros acc w Hu Hp; simpl.
  - exists [], w. rewrite app_nil_r. repeat split. constructor.
  - destruct (transition_row_distribution n i w Hi Hu Hp) as (t & Hrow & Hd).
    unfold bind. rewrite Hrow.
    destruct (IH (acc ++ [t]) (np_advance n (tick w)))
      as (rows & w' & Hrows & Hlen & Hall).
    { intro k. exact (Hu k). }
    { intro k. exact (Hp k). }
    exists (t :: rows), w'. rewrite Hrows, <- app_assoc.
    repeat split; simpl; [lia|]. constructor; assumption.
Qed.

(** In exact arithmetic and away from draws that are exactly zero, what
    the factory builds from a well-formed matrix of non-negative rates
    with at least one row is a valid model. *)
Lemma random_model_from_emissions_valid r c fl w :
  1 <= r -> length fl = r * c -> Forall (fun x => (0 <= x)%Q) fl ->
  unit_draws w -> positive_draws w ->
  exists m w',
    random_model_from_emissions (mkArray [r; c] fl) w = Ok (m, w') /\
    valid_model m /\ n_states m = r /\ n_obs m = c.
Proof.
  intros Hr Hlen Hfl Hu Hp.
  destruct (transition_rows_distribution r (xrange r) (xrange_below r) []
              (np_advance r w)) as (rows & w' & Hrows & Hl & Hall).
  { intro k. exact (Hu k). }
  { intro k. exact (Hp k). }
  unfold random_model_from_emissions.
  unfold bind, ret, lift, random_sample. simpl. rewrite Hrows. simpl.
  eexists _, _. split; [reflexivity|]. split; [|split; reflexivity].
  unfold xrange in Hl. rewrite length_seq in Hl.
  constructor; simpl; auto.
  - assert (Hs : length (map (fun k => np_sample w (np_pos w + k)) (seq 0 r)) = r)
      by (rewrite length_map, length_seq; reflexivity).
    rewrite <- Hs at 1. apply normalize_distribution.
    + apply Forall_map, Forall_forall. intros k _.
      destruct (Hu (np_pos w + k)) as [_ [H0 _]]. exact H0.
    + apply Qsum_pos.
      * destruct r; [lia|]. simpl. discriminate.
      * apply Forall_map, Forall_forall. intros k _.
        destruct (Hp (np_pos w + k)) as [_ H0]. exact H0.
  - unfold wf_array. simpl. lia.
Qed.

Lemma random_model_valid n k w :
  1 <= n -> unit_draws w -> positive_draws w ->
  exists m w',
    random_model n k w = Ok (m, w') /\
    valid_model m /\ n_states m = n /\ n_obs m = k.
Proof.
  intros Hn Hu Hp. unfold random_model, bind, randint. simpl.
  apply random_model_from_emissions_valid; auto.
  - rewrite length_map, length_seq. reflexivity.
  - apply Forall_map, Forall_forall. intros i _.
    match goal with
    | |- (0 <= inject_Z ?z)%Q =>
        change 0%Q with (inject_Z 0); rewrite <- Zle_Qle
    end.
    pose proof (Z.mod_pos_bound (np_int w (np_pos w + i)) 1500 eq_refl).
    lia.
Qed.

(** C4 (the failing input): [random_model(1, 1)] when [random.random()]
    returns [0.0], a value of its range [[0, 1)].  The row of state [0] is
    [0 / 0]: the model that comes back has a nan transition row, which is
    neither non-negative nor of sum one. *)
Theorem random_model_zero_stay_draw_gives_nan_row :
  unit_draws Scenario.zero_stay_world /\
  outcome (random_model 1 1 Scenario.zero_stay_world)
    = Ok (mkModel 1 1 [Fin (2 # 2)] [[NaN]] (mkArray [1; 1] [7%Q])) /\
  ~ Forall (distribution 1) [[NaN]].
Proof.
  split; [|split].
  - intro k. simpl. repeat split; discriminate || reflexivity.
  - reflexivity.
  - intro H. inversion H as [|? ? (_ & Hnn & _) _]; subst.
    inversion Hnn as [|? ? Hnan _]; subst. exact Hnan.
Qed.

(** ** The generators are the only hidden input *)

Lemma same_source_refl w : same_source w w.
Proof. repeat split. Qed.

Lemma det_ret A (a : A) : deterministic (ret a).
Proof. intros w1 w2 H. simpl. auto. Qed.

Lemma det_lift A (r : result A) : deterministic (lift r).
Proof. intros w1 w2 H. unfold lift. destruct r; simpl; auto. Qed.

Lemma det_bind A B (c : M A) (k : A -> M B) :
  deterministic c -> (forall a, deterministic (k a)) ->
  deterministic (x <- c ;; k x).
Proof.
  intros Hc Hk w1 w2 H. unfold bind. specialize (Hc w1 w2 H).
  destruct (c w1) as [[a1 u1]|e1], (c w2) as [[a2 u2]|e2];
    simpl in Hc; try contradiction.
  - destruct Hc as [<- Hu]. apply Hk. exact Hu.
  - exact Hc.
Qed.

Lemma same_source_tick w1 w2 :
  same_source w1 w2 -> same_source (tick w1) (tick w2).
Proof.
  intros (H1 & H2 & H3 & H4 & H5 & H6). unfold same_source. simpl.
  repeat split; auto.
Qed.

Lemma same_source_np_advance n w1 w2 :
  same_source w1 w2 -> same_source (np_advance n w1) (np_advance n w2).
Proof.
  intros (H1 & H2 & H3 & H4 & H5 & H6). unfold same_source. simpl.
  repeat split; auto.
Qed.

Lemma det_random : deterministic random.
Proof.
  intros w1 w2 H. unfold random. simpl. split.
  - destruct H as (H1 & _ & H3 & _). rewrite H1. apply H3.
  - apply same_source_tick. exact H.
Qed.

Lemma det_random_sample n : deterministic (random_sample n).
Proof.
  intros w1 w2 H. unfold random_sample. simpl. split.
  - destruct H as (_ & H2 & _ & H4 & _). rewrite H2.
    apply map_ext. intro k. apply H4.
  - apply same_source_np_advance. exact H.
Qed.

Lemma det_poisson lam : deterministic (poisson lam).
Proof.
  intros w1 w2 H. unfold poisson.
  destruct (existsb _ _); simpl; [reflexivity|].
  destruct (existsb _ _); simpl; [reflexivity|]. split.
  - destruct H as (_ & H2 & _ & _ & _ & H6). rewrite H2. f_equal.
    apply map_ext. intro kl. rewrite H6. reflexivity.
  - apply same_source_np_advance. exact H.
Qed.

Lemma det_randint low high r c : deterministic (randint low high r c).
Proof.
  intros w1 w2 H. unfold randint.
  destruct (high <=? low)%Z; simpl; [reflexivity|]. split.
  - destruct H as (_ & H2 & _ & _ & H5 & _). rewrite H2. f_equal.
    apply map_ext. intro k. rewrite H5. reflexivity.
  - apply same_source_np_advance. exact H.
Qed.

Lemma det_weighted_choice A (choices : list A) probs :
  deterministic (weighted_choice choices probs).
Proof.
  unfold weighted_choice. apply det_bind; [apply det_random|].
  intro r. apply det_lift.
Qed.

Lemma det_step m noise v : deterministic (step m noise v).
Proof.
  unfold step.
  apply det_bind; [apply det_lift|]. intro datum0.
  apply det_bind; [destruct noise; [apply det_poisson | apply det_ret]|].
  intro datum.
  apply det_bind; [apply det_lift|]. intro row.
  apply det_bind; [apply det_weighted_choice|]. intro s'.
  destruct (negb (s' =? state v)).
  - apply det_bind; [apply det_lift|]. intro dw. apply det_ret.
  - apply det_ret.
Qed.

Lemma det_iterate n body :
  (forall v, deterministic (body v)) -> forall v, deterministic (iterate n body v).
Proof.
  intro Hb. induction n as [|n IH]; intro v; simpl.
  - apply det_ret.
  - apply det_bind; [apply Hb | exact IH].
Qed.

Lemma det_random_data m L noise : deterministic (random_data m L noise).
Proof.
  unfold random_data, random_data_run.
  apply det_bind; [|intro v; apply det_ret].
  apply det_bind; [apply det_weighted_choice|]. intro s0.
  apply det_iterate. intro v. apply det_step.
Qed.

Lemma det_transition_rows n todo :
  forall acc, deterministic (transition_rows n todo acc).
Proof.
  induction todo as [|i todo IH]; intro acc; simpl.
  - apply det_ret.
  - apply det_bind; [|intro t; apply IH].
    unfold transition_row.
    apply det_bind; [apply det_random|]. intro stay.
    apply det_bind; [apply det_random_sample|]. intro samples.
    apply det_bind; [apply det_lift|]. intro t. apply det_ret.
Qed.

Lemma det_random_model_from_emissions e :
  deterministic (random_model_from_emissions e).
Proof.
  unfold random_model_from_emissions.
  apply det_bind.
  { destruct (length (shape e) =? 1); [apply det_lift | apply det_ret]. }
  intro e'. apply det_bind; [apply det_lift|]. intro dims.
  apply det_bind; [apply det_random_sample|]. intro start.
  apply det_bind; [apply det_transition_rows|]. intro rows. apply det_ret.
Qed.

Lemma det_random_model n k : deterministic (random_model n k).
Proof.
  unfold random_model. apply det_bind; [apply det_randint|].
  intro e. apply det_random_model_from_emissions.
Qed.

(** C9 (as amended): the generators are process-wide state, read and
    advanced by every call; what [random_model], [random_model_from_emissions]
    and [random_data] return is a function of their arguments and of the
    state of the generators when they are called.  Started from
    generators that return the same values at the same positions, two
    calls with the same arguments end alike: same value or same
    exception, and generators that again cannot be told apart. *)
Theorem same_generators_same_output (w1 w2 : World) :
  same_source w1 w2 ->
  (forall m L noise, agree (random_data m L noise w1) (random_data m L noise w2)) /\
  (forall e, agree (random_model_from_emissions e w1)
                   (random_model_from_emissions e w2)) /\
  (forall n k, agree (random_model n k w1) (random_model n k w2)).
Proof.
  intro H. split; [|split].
  - intros m L noise. apply det_random_data. exact H.
  - intro e. apply det_random_model_from_emissions. exact H.
  - intros n k. apply det_random_model. exact H.
Qed.

Lemma pattern_draws_agree k :
  (if (2 <=? k) && (k <=? 4) then 3 # 4 else 1 # 4) =
  (if (k <? 2) || (4 <? k) then 1 # 4 else 3 # 4).
Proof.
  destruct (Nat.leb_spec 2 k), (Nat.leb_spec k 4),
           (Nat.ltb_spec k 2), (Nat.ltb_spec 4 k);
    try reflexivity; lia.
Qed.

Lemma same_source_pattern :
  same_source Scenario.pattern_world Scenario.pattern_world_again.
Proof.
  split; [reflexivity|]. split; [reflexivity|].
  split; [exact pattern_draws_agree|].
  repeat split.
Qed.

Lemma same_generators_same_output_witness :
  agree (random_data Scenario.uniform2 5 true Scenario.pattern_world)
        (random_data Scenario.uniform2 5 true Scenario.pattern_world_again) /\
  agree (random_model 3 2 Scenario.pattern_world)
        (random_model 3 2 Scenario.pattern_world_again).
Proof.
  destruct (same_generators_same_output
              Scenario.pattern_world Scenario.pattern_world_again
              same_source_pattern) as (Hd & _ & Hm).
  split; [apply Hd | apply Hm].
Defined.

(** C9 (counterexample): [random_data] is called twice with the same
    model, length and noise flag, the second call right after the first.
    The generator is not among the arguments, the second call finds it
    where the first one left it, and the two trajectories differ. *)
Lemma successive_calls_differ :
  outcome (Scenario.two_calls Scenario.pattern_world)
  = Ok (([mkArray [1] [342%Q]; mkArray [1] [342%Q]], [0; 0], [[1]; []]),
        ([mkArray [1] [541%Q]; mkArray [1] [541%Q]], [1; 1], [[]; [1]])) /\
  ([mkArray [1] [342%Q]; mkArray [1] [342%Q]], [0; 0], [[1]; @nil nat])
  <> ([mkArray [1] [541%Q]; mkArray [1] [541%Q]], [1; 1], [[]; [1]]).
Proof.
  split; [reflexivity | discriminate].
Qed.

(** * Further properties *)

(** ** CategoricalSampler: larger draws, later outcomes *)

Lemma Forall_firstn A (P : A -> Prop) n l : Forall P l -> Forall P (firstn n l).
Proof.
  intro H. apply Forall_forall. intros x Hx. apply In_firstn in Hx.
  rewrite Forall_forall in H. auto.
Qed.

Lemma walk_seq_from (probs : list pyfloat) a n r s :
  walk r (combine (seq a n) probs) = Ok s -> a <= s.
Proof.
  intro H. apply walk_In in H. apply combine_fst_incl in H.
  apply in_seq in H. lia.
Qed.

Lemma walk_monotone (probs : list pyfloat) :
  Forall finite_weight probs ->
  forall a n (r r' : Q) s,
    (r' <= r)%Q ->
    walk (Fin r) (combine (seq a n) probs) = Ok s ->
    exists s', walk (Fin r') (combine (seq a n) probs) = Ok s' /\ s' <= s.
Proof.
  induction 1 as [|p probs [q ->] _ IH]; intros a n r r' s Hle H.
  - rewrite combine_nil in H. discriminate.
  - destruct n as [|n]; [discriminate|].
    cbn [seq combine walk flt fsub] in *.
    destruct (Qltb r q) eqn:E.
    + inv H. apply Qltb_lt in E.
      assert (E' : Qltb r' q = true) by (apply Qltb_lt; lra).
      rewrite E'. exists s. auto.
    + apply Qltb_ge in E.
      pose proof (walk_seq_from _ _ _ _ _ H) as Hs.
      destruct (Qltb r' q) eqn:E'.
      * exists a. split; [reflexivity | lia].
      * apply (IH (S a) n (r - q)%Q (r' - q)%Q s); [lra | exact H].
Qed.

(** X1: the sampler is monotone in the draw.  On finite weights, if the
    draw [r] selects the outcome of position [s] of [xrange(n)], every
    draw [r' <= r] selects an outcome too, at position [s] or before: a
    larger draw never selects an earlier outcome. *)
Theorem weighted_choice_monotone_in_draw
  (n : nat) (probs : list pyfloat) (w w' : World) (s : nat) (w1 : World) :
  Forall finite_weight probs ->
  (py_tape w' (py_pos w') <= py_tape w (py_pos w))%Q ->
  weighted_choice (xrange n) probs w = Ok (s, w1) ->
  exists s', weighted_choice (xrange n) probs w' = Ok (s', tick w') /\ s' <= s.
Proof.
  intros Hfin Hle H. rewrite weighted_choice_unfold in *.
  destruct (walk (Fin (py_tape w (py_pos w))) _) as [s0|e] eqn:E;
    [|discriminate].
  inv H. unfold xrange in *.
  destruct (walk_monotone probs Hfin 0 n _ _ s Hle E) as (s' & Hs' & Hord).
  exists s'. rewrite Hs'. auto.
Qed.

Lemma weighted_choice_monotone_in_draw_witness :
  exists s',
    weighted_choice (xrange 3) Example.gap_probs Scenario.half_world
      = Ok (s', tick Scenario.half_world) /\ s' <= 2.
Proof.
  apply (weighted_choice_monotone_in_draw
           3 Example.gap_probs Example.upper_world Scenario.half_world
           2 (tick Example.upper_world)).
  - repeat constructor; eexists; reflexivity.
  - vm_compute. discriminate.
  - reflexivity.
Defined.

(** ** CategoricalSampler: a nan weight *)

Lemma walk_nan A (cps : list (A * pyfloat)) : walk NaN cps = Raise RuntimeError.
Proof.
  induction cps as [|[c p] rest IH]; [reflexivity|].
  simpl. exact IH.
Qed.

Lemma walk_reaches_nan A (pre rest : list pyfloat) :
  Forall nonpositive pre ->
  forall (choices : list A) (r : Q),
    (0 <= r)%Q ->
    walk (Fin r) (combine choices (pre ++ NaN :: rest)) = Raise RuntimeError.
Proof.
  induction 1 as [|p pre Hp Hpre IH]; intros [|c cs] r Hr;
    try reflexivity.
  - simpl. apply walk_nan.
  - destruct p as [q| | |]; simpl in Hp; try contradiction.
    cbn [app combine walk flt].
    assert (E : Qltb r q = false) by (apply Qltb_ge; lra).
    rewrite E. cbn [fsub]. apply IH. lra.
Qed.

(** X2: a nan weight that the walk reaches poisons it.  When the weights
    before the nan are finite and none is positive (there may be none),
    [weighted_choice] raises [RuntimeError] for every draw [r >= 0],
    whatever the weights after the nan are: no comparison succeeds before
    it, the subtraction of the nan turns the running draw into nan, and
    every later comparison is false. *)
Theorem weighted_choice_nan_raises
  (A : Type) (choices : list A) (pre rest : list pyfloat) (w : World) :
  Forall nonpositive pre ->
  (0 <= py_tape w (py_pos w))%Q ->
  weighted_choice choices (pre ++ NaN :: rest) w = Raise RuntimeError.
Proof.
  intros Hpre Hr. rewrite weighted_choice_unfold.
  rewrite (walk_reaches_nan A pre rest Hpre choices _ Hr). reflexivity.
Qed.

Lemma weighted_choice_nan_raises_witness :
  weighted_choice [0; 1; 2] [Fin 0; NaN; Fin 5] Scenario.half_world
  = Raise RuntimeError.
Proof.
  apply (weighted_choice_nan_raises
           nat [0; 1; 2] [Fin 0] [Fin 5] Scenario.half_world).
  - repeat constructor. simpl. discriminate.
  - vm_compute. discriminate.
Defined.

(** ** CategoricalSampler: outcomes of weight zero *)

Lemma walk_seq_positive (probs : list pyfloat) :
  Forall nonneg probs ->
  forall a n (r : Q) s,
    (0 <= r)%Q ->
    walk (Fin r) (combine (seq a n) probs) = Ok s ->
    a <= s /\
    exists p, nth_error probs (s - a) = Some (Fin p) /\ (0 < p)%Q.
Proof.
  induction 1 as [|p probs Hp Hprobs IH]; intros a n r s Hr H.
  - rewrite combine_nil in H. discriminate.
  - destruct n as [|n]; [discriminate|].
    destruct p as [q| | |]; simpl in Hp; try contradiction.
    cbn [seq combine walk flt] in H.
    destruct (Qltb r q) eqn:E.
    + inv H. split; [lia|]. exists q. rewrite Nat.sub_diag.
      apply Qltb_lt in E. split; [reflexivity | lra].
    + apply Qltb_ge in E. cbn [fsub] in H.
      apply IH in H; [|lra]. destruct H as (Has & p & Hn & Hpos).
      split; [lia|]. exists p. split; [|exact Hpos].
      replace (s - a) with (S (s - S a)) by lia. exact Hn.
Qed.

Lemma weighted_choice_positive n probs w s w' :
  Forall nonneg probs -> (0 <= py_tape w (py_pos w))%Q ->
  weighted_choice (xrange n) probs w = Ok (s, w') ->
  exists p, nth_error probs s = Some (Fin p) /\ (0 < p)%Q.
Proof.
  intros Hnn Hr H. rewrite weighted_choice_unfold in H.
  destruct (walk _ _) as [s0|e] eqn:E; [|discriminate]. inv H.
  unfold xrange in E.
  destruct (walk_seq_positive probs Hnn 0 n _ s Hr E) as (_ & p & Hp & Hpos).
  rewrite Nat.sub_0_r in Hp. eauto.
Qed.

(** ** TrajectorySimulator: what a pass does to the generators *)

Lemma iterate_Ok_count (P : nat -> Locals -> World -> Prop) body n v w v' w' :
  iterate n body v w = Ok (v', w') ->
  (forall k v w v' w', P k v w -> body v w = Ok (v', w') -> P (S k) v' w') ->
  P 0 v w ->
  P n v' w'.
Proof.
  intros H Hstep H0.
  pose proof (iterate_Ok_ind P body Hstep n 0 v w v' w' H0 H) as Hn.
  rewrite Nat.add_0_r in Hn. exact Hn.
Qed.

Lemma same_tapes_refl w : same_tapes w w.
Proof. repeat split. Qed.

Lemma same_tapes_trans w1 w2 w3 :
  same_tapes w1 w2 -> same_tapes w2 w3 -> same_tapes w1 w3.
Proof.
  intros (A1 & A2 & A3 & A4) (B1 & B2 & B3 & B4).
  repeat split; congruence.
Qed.

Lemma same_tapes_unit_draws w w' :
  same_tapes w w' -> unit_draws w -> unit_draws w'.
Proof.
  intros (H1 & H2 & _) Hu k. rewrite H1, H2. exact (Hu k).
Qed.

Lemma same_tapes_positive_draws w w' :
  same_tapes w w' -> positive_draws w -> positive_draws w'.
Proof.
  intros (H1 & H2 & _) Hp k. rewrite H1, H2. exact (Hp k).
Qed.

Lemma poisson_Ok lam w d w1 :
  poisson lam w = Ok (d, w1) ->
  w1 = np_advance (length (flat lam)) w /\
  shape d = shape lam /\ length (flat d) = length (flat lam) /\
  Forall integral (flat d).
Proof.
  unfold poisson. destruct (existsb _ _); [discriminate|].
  destruct (existsb _ _); [discriminate|].
  intro H. inv H. simpl. repeat split.
  - rewrite length_map, length_combine, length_seq. apply Nat.min_id.
  - apply Forall_map, Forall_forall. intros kl _. eexists. reflexivity.
Qed.

Lemma step_world m noise v w v' w' :
  step m noise v w = Ok (v', w') ->
  same_tapes w w' /\ py_pos w' = S (py_pos w) /\
  exists row, getitem (emissions m) (state v) = Ok row /\
    np_pos w' = (if noise then length (flat row) else 0) + np_pos w.
Proof.
  intro H. apply step_Ok in H.
  destruct H as (datum0 & datum & row & w1 & Hg & Hn & _ & Hc & _).
  apply weighted_choice_In in Hc. destruct Hc as [_ ->].
  destruct noise.
  - apply poisson_Ok in Hn. destruct Hn as (-> & _).
    split; [repeat split|]. split; [reflexivity|].
    exists datum0. split; [exact Hg | reflexivity].
  - destruct Hn as [_ ->].
    split; [repeat split|]. split; [reflexivity|].
    exists datum0. split; [exact Hg | reflexivity].
Qed.

Lemma getitem_row_length a r c i row :
  shape a = [r; c] -> wf_array a -> getitem a i = Ok row ->
  i < r /\ shape row = [c] /\ length (flat row) = c.
Proof.
  intros Hs Hwf H. unfold getitem in H. rewrite Hs in H.
  destruct (i <? r) eqn:E; [|discriminate]. apply Nat.ltb_lt in E.
  inv H. simpl. split; [exact E|]. split; [reflexivity|].
  unfold wf_array in Hwf. rewrite Hs in Hwf. simpl in Hwf.
  rewrite length_firstn, length_skipn, Hwf. nia.
Qed.

(** X3: a call of [random_data] that returns has read exactly
    [length + 1] values of [random.random()] (one for the first state,
    one per pass); without noise it has not touched numpy's generator, and
    with noise, on a well-formed emission matrix of [n_obs] columns, it
    has read [n_obs] Poisson values per pass.  No call changes what the
    generators will return at a given position. *)
Theorem random_data_draw_count
  (m : Model) (L : Z) (noise : bool) (w : World)
  (t : list ndarray * list nat * list (list nat)) (w' : World) :
  random_data m L noise w = Ok (t, w') ->
  same_tapes w w' /\
  py_pos w' = py_pos w + Z.to_nat L + 1 /\
  (noise = false -> np_pos w' = np_pos w) /\
  (noise = true -> wf_array (emissions m) ->
   forall r c, shape (emissions m) = [r; c] ->
     np_pos w' = np_pos w + Z.to_nat L * c).
Proof.
  destruct t as [[obs seq] dw]. intro H.
  apply random_data_Ok in H. destruct H as (v & H & _).
  unfold random_data_run in H.
  apply bind_Ok in H. destruct H as (s0 & w1 & Hc & H).
  apply weighted_choice_In in Hc. destruct Hc as [_ ->].
  apply (iterate_Ok_count
    (fun k _ w2 =>
       same_tapes w w2 /\ py_pos w2 = py_pos w + k + 1 /\
       (noise = false -> np_pos w2 = np_pos w) /\
       (noise = true -> wf_array (emissions m) ->
        forall r c, shape (emissions m) = [r; c] ->
          np_pos w2 = np_pos w + k * c))
    (step m noise) (Z.to_nat L) _ _ _ _ H).
  - intros k v0 w0 v1 w2 (Ht & Hp & Hn0 & Hn1) Hb.
    apply step_world in Hb.
    destruct Hb as (Ht' & Hp' & row & Hg & Hnp).
    split; [eapply same_tapes_trans; eauto|].
    split; [lia|]. split.
    + intro E. subst noise. rewrite Hnp, (Hn0 eq_refl). reflexivity.
    + intros E Hwf r c Hs. subst noise.
      destruct (getitem_row_length _ r c _ _ Hs Hwf Hg) as (_ & _ & Hl).
      rewrite Hnp, Hl, (Hn1 eq_refl Hwf r c Hs). lia.
  - simpl. split; [repeat split|]. split; [lia|].
    split; [reflexivity|]. intros _ _ r c _. lia.
Qed.

(** ** TrajectorySimulator: only moves of positive weight *)

Lemma positive_path_snoc m l s s' :
  positive_path m (l ++ [s]) -> positive_transition m s s' ->
  positive_path m ((l ++ [s]) ++ [s']).
Proof.
  intros Hp Ht i a b Ha Hb.
  assert (Hlen : length (l ++ [s]) = S (length l))
    by (rewrite length_app; simpl; lia).
  destruct (Nat.lt_ge_cases (S i) (length (l ++ [s]))) as [Hlt|Hge].
  - rewrite nth_error_app1 in Ha by lia.
    rewrite nth_error_app1 in Hb by lia. eapply Hp; eauto.
  - assert (Hi : S i < length ((l ++ [s]) ++ [s'])).
    { apply nth_error_Some. congruence. }
    rewrite length_app in Hi. simpl in Hi.
    assert (i = length l) by lia. subst i.
    rewrite nth_error_app1 in Ha by lia.
    rewrite nth_error_app2 in Ha by lia.
    rewrite Nat.sub_diag in Ha. simpl in Ha. inv Ha.
    rewrite nth_error_app2 in Hb by lia.
    replace (S (length l) - length (l ++ [a])) with 0 in Hb by lia.
    simpl in Hb. inv Hb. exact Ht.
Qed.

Lemma positive_path_prefix m l x :
  positive_path m (l ++ [x]) -> positive_path m l.
Proof.
  intros Hp i a b Ha Hb.
  assert (S i < length l) by (apply nth_error_Some; congruence).
  apply (Hp i a b); rewrite nth_error_app1 by lia; assumption.
Qed.

Lemma hd_error_snoc A (l : list A) x y :
  hd_error ((l ++ [x]) ++ [y]) = hd_error (l ++ [x]).
Proof. destruct l; reflexivity. Qed.

(** X4: on a model whose weights are finite and non-negative, with draws
    in [[0, 1)], every move in a returned state sequence has positive
    weight in [trans_prob], and the first state has positive weight in
    [start_prob]: a transition of weight zero is never taken. *)
Theorem random_data_follows_positive_weights
  (m : Model) (L : Z) (noise : bool) (w : World)
  (obs : list ndarray) (seq : list nat) (dw : list (list nat)) (w' : World) :
  Forall nonneg (start_prob m) ->
  Forall (Forall nonneg) (trans_prob m) ->
  unit_draws w ->
  random_data m L noise w = Ok ((obs, seq, dw), w') ->
  positive_path m seq /\
  (forall s0, hd_error seq = Some s0 ->
     exists p, nth_error (start_prob m) s0 = Some (Fin p) /\ (0 < p)%Q).
Proof.
  intros Hstart Htrans Hu H.
  apply random_data_Ok in H. destruct H as (v & H & _ & -> & _).
  unfold random_data_run in H.
  apply bind_Ok in H. destruct H as (s0 & w1 & Hc & H).
  assert (Hs0 : exists p, nth_error (start_prob m) s0 = Some (Fin p) /\ (0 < p)%Q).
  { eapply weighted_choice_positive; [exact Hstart| |exact Hc].
    destruct (Hu (py_pos w)) as [[H0 _] _]. exact H0. }
  apply weighted_choice_In in Hc. destruct Hc as [_ ->].
  pose proof (iterate_Ok_ind
    (fun _ v0 w0 =>
       unit_draws w0 /\
       positive_path m (state_seq v0 ++ [state v0]) /\
       hd_error (state_seq v0 ++ [state v0]) = Some s0)
    (step m noise)) as Hind.
  simpl in Hind.
  assert (Hfin : unit_draws w' /\
                 positive_path m (state_seq v ++ [state v]) /\
                 hd_error (state_seq v ++ [state v]) = Some s0).
  { eapply (fun Hs => Hind Hs (Z.to_nat L) 0); [| |exact H].
    - intros _ v0 w0 v1 w2 (Hu0 & Hp & Hhd) Hb.
      pose proof (step_world _ _ _ _ _ _ Hb) as (Ht & _).
      apply step_Ok in Hb.
      destruct Hb as (datum0 & datum & row & w3 & _ & Hn & Hr & Hc & _ & Hs & _).
      assert (Hu3 : unit_draws w3).
      { destruct noise.
        - apply poisson_Ok in Hn. destruct Hn as (-> & _).
          apply unit_draws_np_advance. exact Hu0.
        - destruct Hn as [_ ->]. exact Hu0. }
      unfold index in Hr.
      destruct (nth_error (trans_prob m) (state v0)) as [row0|] eqn:Erow;
        [|discriminate]. inv Hr.
      assert (Hrow : Forall nonneg row).
      { rewrite Forall_forall in Htrans. apply Htrans.
        eapply nth_error_In; eauto. }
      destruct (weighted_choice_positive _ _ _ _ _ Hrow
                  (proj1 (proj1 (Hu3 (py_pos w3)))) Hc) as (p & Hp1 & Hp2).
      split; [eapply same_tapes_unit_draws; eauto|].
      rewrite Hs. split.
      + apply positive_path_snoc; [exact Hp|].
        exists row, p. auto.
      + rewrite hd_error_snoc. exact Hhd.
    - simpl. split; [apply unit_draws_tick; exact Hu|]. split; [|reflexivity].
      intros i a b Ha Hb. destruct i; discriminate. }
  destruct Hfin as (_ & Hp & Hhd). split.
  - eapply positive_path_prefix; eauto.
  - intros s1 Hs1. destruct (state_seq v) as [|a l]; [discriminate|].
    simpl in Hs1, Hhd. inv Hs1. inv Hhd. exact Hs0.
Qed.

Lemma random_data_follows_positive_weights_witness :
  exists obs seq dw w',
    random_data Scenario.alternating 4 false Scenario.half_world
      = Ok ((obs, seq, dw), w') /\
    positive_path Scenario.alternating seq.
Proof.
  destruct (random_data Scenario.alternating 4 false Scenario.half_world)
    as [[[[obs seq] dw] w']|e] eqn:E.
  - exists obs, seq, dw, w'. split; [reflexivity|].
    apply (random_data_follows_positive_weights
             Scenario.alternating 4 false Scenario.half_world obs seq dw w').
    + repeat constructor; simpl; discriminate.
    + repeat constructor; simpl; discriminate.
    + exact unit_draws_half.
    + exact E.
  - vm_compute in E. discriminate E.
Defined.

Lemma random_data_draw_count_witness :
  exists t w',
    random_data Scenario.uniform2 5 true Scenario.pattern_world = Ok (t, w') /\
    py_pos w' = 6 /\ np_pos w' = 5.
Proof.
  destruct (random_data Scenario.uniform2 5 true Scenario.pattern_world)
    as [[t w']|e] eqn:E.
  - exists t, w'. split; [reflexivity|].
    destruct (random_data_draw_count
                Scenario.uniform2 5 true Scenario.pattern_world t w' E)
      as (_ & Hpy & _ & Hnp).
    split; [exact Hpy|].
    apply (Hnp eq_refl eq_refl 2 1 eq_refl).
  - vm_compute in E. discriminate E.
Defined.

(** ** TrajectorySimulator: how many steps the dwell lists hold *)

Lemma append_at_dwell_total dw s d dw' :
  append_at dw s d = Ok dw' ->
  dwell_total dw' = dwell_total dw + d /\ length dw' = length dw.
Proof.
  unfold dwell_total.
  revert s dw'. induction dw as [|l rest IH]; intros s dw' H; simpl in H;
    [discriminate|].
  destruct s as [|j].
  - inv H. simpl. rewrite list_sum_app. simpl. lia.
  - destruct (append_at rest j d) as [rest'|e] eqn:E; [|discriminate].
    inv H. destruct (IH _ _ E) as [Hsum Hlen]. simpl. lia.
Qed.

Lemma dwell_total_empty n : dwell_total (map (fun _ => []) (seq 0 n)) = 0.
Proof.
  unfold dwell_total. generalize 0 at 1. induction n as [|n IH]; intro a; simpl;
    [reflexivity | apply IH].
Qed.

Lemma random_data_run_dwell_total m L noise w v w' :
  random_data_run m L noise w = Ok (v, w') ->
  dwell_total (dwells v) + dwell v = Z.to_nat L /\
  (Z.to_nat L = 0 \/ 1 <= dwell v) /\
  length (dwells v) = n_states m.
Proof.
  unfold random_data_run. intro H.
  apply bind_Ok in H. destruct H as (s0 & w1 & _ & H).
  apply (iterate_Ok_count
    (fun k v0 _ =>
       dwell_total (dwells v0) + dwell v0 = k /\
       (k = 0 \/ 1 <= dwell v0) /\
       length (dwells v0) = n_states m)
    (step m noise) (Z.to_nat L) _ _ _ _ H).
  - intros k v0 w0 v1 w2 (Hsum & _ & Hlen) Hb.
    apply step_Ok in Hb.
    destruct Hb as (_ & _ & _ & _ & _ & _ & _ & _ & _ & _ & Hbook).
    destruct (state v1 =? state v0).
    + destruct Hbook as [Hd Hdw]. rewrite Hd, Hdw.
      split; [lia|]. split; [right; lia | exact Hlen].
    + destruct Hbook as [Hd Ha]. apply append_at_dwell_total in Ha.
      destruct Ha as [Ht Hl]. rewrite Hd, Ht, Hl.
      split; [lia|]. split; [right; lia | exact Hlen].
  - simpl. rewrite dwell_total_empty, length_map, length_seq.
    split; [reflexivity|]. split; [left|]; reflexivity.
Qed.

(** X5: in every trajectory [random_data] returns there is one dwell list
    per state, and for a length [L > 0] the entries of all dwell lists
    add up to less than [L]: together with the counter of the run that
    is open when the loop ends, which is at least one and is thrown away,
    they add up to exactly [L]. *)
Theorem random_data_dwells_hold_fewer_steps
  (m : Model) (L : Z) (noise : bool) (w : World) (v : Locals) (w' : World) :
  (0 < L)%Z ->
  random_data_run m L noise w = Ok (v, w') ->
  random_data m L noise w = Ok ((data v, state_seq v, dwells v), w') /\
  length (dwells v) = n_states m /\
  Z.of_nat (dwell_total (dwells v) + dwell v) = L /\
  (Z.of_nat (dwell_total (dwells v)) < L)%Z.
Proof.
  intros HL H. split.
  { unfold random_data, bind. rewrite H. reflexivity. }
  apply random_data_run_dwell_total in H.
  destruct H as (Hsum & [H0|H1] & Hlen); repeat split; try lia.
Qed.

Lemma random_data_dwells_hold_fewer_steps_witness :
  exists v w',
    random_data_run Scenario.uniform2 5 false Scenario.pattern_world
      = Ok (v, w') /\
    dwells v = [[1]; [3]] /\ dwell v = 1 /\
    Z.of_nat (dwell_total (dwells v) + dwell v) = 5%Z.
Proof.
  destruct (random_data_run Scenario.uniform2 5 false Scenario.pattern_world)
    as [[v w']|e] eqn:E.
  - exists v, w'. split; [reflexivity|].
    destruct (random_data_dwells_hold_fewer_steps
                Scenario.uniform2 5 false Scenario.pattern_world v w')
      as (_ & _ & Hsum & _); [lia | exact E |].
    split; [|split; [|exact Hsum]];
      vm_compute in E; inversion E; reflexivity.
  - vm_compute in E. discriminate E.
Defined.

(** ** TrajectorySimulator: a longer run extends a shorter one *)

Lemma iterate_snoc n body : forall v w,
  iterate (S n) body v w =
  match iterate n body v w with
  | Ok (v', w') => body v' w'
  | Raise e => Raise e
  end.
Proof.
  induction n as [|n IH]; intros v w.
  - simpl. unfold bind, ret. destruct (body v w) as [[v' w']|e]; reflexivity.
  - rewrite iterate_S. rewrite (iterate_S n).
    destruct (body v w) as [[v1 w1]|e]; [|reflexivity].
    apply IH.
Qed.

(** X6: from the same generator state, the trajectory of length [L + 1]
    is the trajectory of length [L] with one more state and one more
    observation at the end: asking for more steps does not change the
    earlier ones, and a call that returns for [L + 1] returns for [L]. *)
Theorem random_data_extends_shorter_run
  (m : Model) (L : Z) (noise : bool) (w : World)
  (obs' : list ndarray) (seq' : list nat) (dw' : list (list nat)) (w' : World) :
  (0 <= L)%Z ->
  random_data m (L + 1) noise w = Ok ((obs', seq', dw'), w') ->
  exists obs seq dw w1 d s,
    random_data m L noise w = Ok ((obs, seq, dw), w1) /\
    obs' = obs ++ [d] /\ seq' = seq ++ [s] /\ s < n_states m.
Proof.
  intros HL H.
  apply random_data_Ok in H. destruct H as (v' & H & -> & -> & ->).
  unfold random_data_run in H.
  apply bind_Ok in H. destruct H as (s0 & w0 & Hc & H).
  replace (Z.to_nat (L + 1)) with (S (Z.to_nat L)) in H by lia.
  rewrite iterate_snoc in H.
  destruct (iterate (Z.to_nat L) (step m noise) _ w0) as [[v w1]|e] eqn:Hit;
    [|discriminate].
  assert (Hrun : random_data_run m L noise w = Ok (v, w1)).
  { unfold random_data_run, bind. rewrite Hc. exact Hit. }
  pose proof (random_data_run_shape _ _ _ _ _ _ Hrun) as (_ & _ & _ & Hst).
  apply step_Ok in H.
  destruct H as (_ & datum & _ & _ & _ & _ & _ & _ & Hd & Hs & _).
  exists (data v), (state_seq v), (dwells v), w1, datum, (state v).
  split; [|auto].
  unfold random_data, bind. rewrite Hrun. reflexivity.
Qed.

Lemma random_data_extends_shorter_run_witness :
  exists obs seq dw w1 d s,
    random_data Scenario.uniform2 4 true Scenario.pattern_world
      = Ok ((obs, seq, dw), w1) /\
    [mkArray [1] [3%Q]; mkArray [1] [3%Q]; mkArray [1] [3%Q];
     mkArray [1] [3%Q]; mkArray [1] [3%Q]] = obs ++ [d] /\
    [0; 0; 1; 1; 1] = seq ++ [s] /\ s < 2.
Proof.
  apply (random_data_extends_shorter_run
           Scenario.uniform2 4 true Scenario.pattern_world
           _ _ [[1]; [3]]
           (np_advance 1 (tick (np_advance 1 (tick (np_advance 1 (tick
             (np_advance 1 (tick (np_advance 1 (tick (tick
                Scenario.pattern_world)))))))))))).
  - lia.
  - reflexivity.
Defined.

(** ** TrajectorySimulator: what the noise changes and what it does not *)

Lemma random_data_run_noisy m L w v w' :
  random_data_run m L true w = Ok (v, w') ->
  Forall2 (fun d s => exists row,
             getitem (emissions m) s = Ok row /\
             shape d = shape row /\
             length (flat d) = length (flat row) /\
             Forall integral (flat d))
          (data v) (state_seq v).
Proof.
  unfold random_data_run. intro H.
  apply bind_Ok in H. destruct H as (s0 & w1 & _ & H).
  apply (iterate_Ok_count
    (fun _ v0 _ =>
       Forall2 (fun d s => exists row,
                  getitem (emissions m) s = Ok row /\
                  shape d = shape row /\
                  length (flat d) = length (flat row) /\
                  Forall integral (flat d))
               (data v0) (state_seq v0))
    (step m true) (Z.to_nat L) _ _ _ _ H).
  - intros _ v0 w0 v1 w2 HP Hb.
    apply step_Ok in Hb.
    destruct Hb as (datum0 & datum & row & w3 & Hg & Hn & _ & _ & Hd & Hs & _).
    apply poisson_Ok in Hn. destruct Hn as (_ & Hsh & Hlen & Hint).
    rewrite Hd, Hs. apply Forall2_snoc; [exact HP|].
    exists datum0. auto.
  - simpl. constructor.
Qed.

(** X7: with noise enabled, the observation of every step of a returned
    trajectory has the shape of the emission row of that step's state,
    and holds whole numbers. *)
Theorem random_data_noisy_observations
  (m : Model) (L : Z) (w : World)
  (obs : list ndarray) (seq : list nat) (dw : list (list nat)) (w' : World) :
  random_data m L true w = Ok ((obs, seq, dw), w') ->
  length obs = length seq /\
  forall i s, nth_error seq i = Some s ->
    exists d row,
      nth_error obs i = Some d /\ getitem (emissions m) s = Ok row /\
      shape d = shape row /\ length (flat d) = length (flat row) /\
      Forall integral (flat d).
Proof.
  intro H. apply random_data_Ok in H. destruct H as (v & Hr & -> & -> & _).
  pose proof (random_data_run_noisy _ _ _ _ _ Hr) as HF.
  split; [eapply Forall2_length; eauto|].
  intros i s Hs.
  destruct (Forall2_nth_error _ _ _ _ _ HF i s Hs) as (d & Hd & row & Hrow).
  exists d, row. tauto.
Qed.

Lemma random_data_noisy_observations_witness :
  exists obs seq dw w',
    random_data Scenario.alternating 4 true Scenario.half_world
      = Ok ((obs, seq, dw), w') /\
    length obs = length seq /\
    exists d, nth_error obs 3 = Some d /\ shape d = [2] /\
              Forall integral (flat d).
Proof.
  destruct (random_data Scenario.alternating 4 true Scenario.half_world)
    as [[[[obs seq] dw] w']|e] eqn:E.
  - exists obs, seq, dw, w'. split; [reflexivity|].
    destruct (random_data_noisy_observations
                Scenario.alternating 4 Scenario.half_world obs seq dw w' E)
      as [Hlen Hrows].
    split; [exact Hlen|].
    destruct (Hrows 3 1) as (d & row & Hd & Hg & Hsh & _ & Hint).
    + vm_compute in E. inversion E. reflexivity.
    + exists d. split; [exact Hd|]. split; [|exact Hint].
      rewrite Hsh. vm_compute in Hg. inversion Hg. reflexivity.
  - vm_compute in E. discriminate E.
Defined.



Lemma weighted_choice_same_python A (choices : list A) probs w1 w2 c w1' :
  same_python w1 w2 ->
  weighted_choice choices probs w1 = Ok (c, w1') ->
  weighted_choice choices probs w2 = Ok (c, tick w2) /\
  same_python w1' (tick w2).
Proof.
  intros [Ht Hp] H. rewrite weighted_choice_unfold in *.
  rewrite <- Ht, <- Hp.
  destruct (walk _ _) as [c0|e]; [|discriminate]. inv H.
  split; [reflexivity|]. split; simpl; congruence.
Qed.

Lemma step_without_noise m v1 v2 w1 w2 v1' w1' :
  step m true v1 w1 = Ok (v1', w1') ->
  state v2 = state v1 -> dwell v2 = dwell v1 ->
  state_seq v2 = state_seq v1 -> dwells v2 = dwells v1 ->
  same_python w1 w2 ->
  exists v2' w2',
    step m false v2 w2 = Ok (v2', w2') /\
    state v2' = state v1' /\ dwell v2' = dwell v1' /\
    state_seq v2' = state_seq v1' /\ dwells v2' = dwells v1' /\
    same_python w1' w2'.
Proof.
  intros H Hst Hdl Hsq Hdw Hpy.
  apply step_Ok in H.
  destruct H as (datum0 & datum & row & wa & Hg & Hn & Hr & Hc & _ & Hs & Hbook).
  apply poisson_Ok in Hn. destruct Hn as (-> & _).
  assert (Hpy' : same_python (np_advance (length (flat datum0)) w1) w2)
    by (destruct Hpy; split; assumption).
  destruct (weighted_choice_same_python _ _ _ _ _ _ _ Hpy' Hc) as [Hc2 Hpy2].
  rewrite <- Hst in Hg, Hr.
  rewrite (step_eval m v2 w2 datum0 row (state v1') Hg Hr Hc2).
  rewrite Hst, Hdl, Hsq, Hdw.
  destruct (state v1' =? state v1).
  - destruct Hbook as [Hd Hdws]. simpl.
    eexists _, _. split; [reflexivity|]. simpl.
    split; [reflexivity|]. split; [congruence|]. split; [congruence|].
    split; [congruence | exact Hpy2].
  - destruct Hbook as [Hd Ha]. simpl. rewrite Ha.
    eexists _, _. split; [reflexivity|]. simpl.
    split; [reflexivity|]. split; [congruence|]. split; [congruence|].
    split; [reflexivity | exact Hpy2].
Qed.

Lemma iterate_without_noise m n : forall v1 v2 w1 w2 v1' w1',
  iterate n (step m true) v1 w1 = Ok (v1', w1') ->
  state v2 = state v1 -> dwell v2 = dwell v1 ->
  state_seq v2 = state_seq v1 -> dwells v2 = dwells v1 ->
  same_python w1 w2 ->
  exists v2' w2',
    iterate n (step m false) v2 w2 = Ok (v2', w2') /\
    state_seq v2' = state_seq v1' /\ dwells v2' = dwells v1'.
Proof.
  induction n as [|n IH]; intros v1 v2 w1 w2 v1' w1' H Hst Hdl Hsq Hdw Hpy.
  - simpl in H. apply ret_Ok in H. destruct H as [-> ->].
    exists v2, w2. split; [reflexivity|]. auto.
  - rewrite iterate_S in H.
    destruct (step m true v1 w1) as [[va wa]|e] eqn:Hstep; [|discriminate].
    destruct (step_without_noise _ _ _ _ _ _ _ Hstep Hst Hdl Hsq Hdw Hpy)
      as (vb & wb & Hb & H1 & H2 & H3 & H4 & H5).
    destruct (IH _ _ _ _ _ _ H H1 H2 H3 H4 H5) as (v2' & w2' & Hit & Hres).
    exists v2', w2'. rewrite iterate_S, Hb. auto.
Qed.

(** X9: the noise does not touch the chain.  The states are drawn from
    the [random] module and the counts from numpy's generator, so when a
    call with noise returns, the call without noise from the same
    generator state returns the same state sequence and the same dwell
    lists. *)
Theorem random_data_noise_keeps_states
  (m : Model) (L : Z) (w : World)
  (obs : list ndarray) (seq : list nat) (dw : list (list nat)) (w' : World) :
  random_data m L true w = Ok ((obs, seq, dw), w') ->
  exists obs0 w0, random_data m L false w = Ok ((obs0, seq, dw), w0).
Proof.
  intro H. apply random_data_Ok in H. destruct H as (v & H & _ & -> & ->).
  unfold random_data_run in H.
  apply bind_Ok in H. destruct H as (s0 & w1 & Hc & H).
  destruct (iterate_without_noise m (Z.to_nat L) _
              (mkLocals s0 0 [] [] (map (fun _ => []) (seq 0 (n_states m))))
              w1 w1 _ _ H eq_refl eq_refl eq_refl eq_refl
              (conj eq_refl eq_refl)) as (v2 & w2 & Hit & Hsq & Hdw).
  exists (data v2), w2.
  unfold random_data, random_data_run, bind. rewrite Hc, Hit.
  rewrite Hsq, Hdw. reflexivity.
Qed.

Lemma random_data_noise_keeps_states_witness :
  exists obs0 w0,
    random_data Scenario.uniform2 5 false Scenario.pattern_world
    = Ok ((obs0, [0; 0; 1; 1; 1], [[1]; [3]]), w0).
Proof.
  apply (random_data_noise_keeps_states
           Scenario.uniform2 5 Scenario.pattern_world
           [mkArray [1] [3%Q]; mkArray [1] [3%Q]; mkArray [1] [3%Q];
            mkArray [1] [3%Q]; mkArray [1] [3%Q]]
           [0; 0; 1; 1; 1] [[1]; [3]]
           (np_advance 1 (tick (np_advance 1 (tick (np_advance 1 (tick
             (np_advance 1 (tick (np_advance 1 (tick (tick
                Scenario.pattern_world)))))))))))).
  reflexivity.
Defined.

(** ** ModelFactory: what it reads from the generators *)

Lemma transition_row_Ok n i w t w' :
  transition_row n i w = Ok (t, w') -> w' = np_advance n (tick w).
Proof.
  unfold transition_row. intro H.
  apply bind_Ok in H. destruct H as (stay & wa & Hr & H).
  unfold random in Hr. inv Hr.
  apply bind_Ok in H. destruct H as (samples & wb & Hs & H).
  unfold random_sample in Hs. inv Hs.
  apply bind_Ok in H. destruct H as (t0 & wc & Hl & H).
  apply lift_Ok in Hl. destruct Hl as [_ ->].
  apply ret_Ok in H. destruct H as [_ ->]. reflexivity.
Qed.

Lemma transition_rows_world n todo : forall acc w rows w',
  transition_rows n todo acc w = Ok (rows, w') ->
  same_tapes w w' /\
  py_pos w' = py_pos w + length todo /\
  np_pos w' = np_pos w + length todo * n.
Proof.
  induction todo as [|i todo IH]; intros acc w rows w' H; simpl in H.
  - apply ret_Ok in H. destruct H as [_ ->]. simpl.
    split; [apply same_tapes_refl|]. lia.
  - apply bind_Ok in H. destruct H as (t & w1 & Hrow & H).
    apply transition_row_Ok in Hrow. subst w1.
    apply IH in H. destruct H as (Ht & Hpy & Hnp).
    split; [exact Ht|]. simpl in *. lia.
Qed.

Lemma random_model_from_emissions_world e w m w' :
  random_model_from_emissions e w = Ok (m, w') ->
  same_tapes w w' /\
  py_pos w' = py_pos w + n_states m /\
  np_pos w' = np_pos w + n_states m + n_states m * n_states m.
Proof.
  unfold random_model_from_emissions. intro H.
  apply bind_Ok in H. destruct H as (e' & w0 & He & H).
  assert (w0 = w).
  { destruct (length (shape e) =? 1).
    - apply lift_Ok in He. tauto.
    - apply ret_Ok in He. tauto. }
  subst w0.
  apply bind_Ok in H. destruct H as ([r c] & w1 & Hd & H).
  apply lift_Ok in Hd. destruct Hd as [_ ->].
  apply bind_Ok in H. destruct H as (start & w2 & Hs & H).
  unfold random_sample in Hs. inv Hs.
  apply bind_Ok in H. destruct H as (rows & w3 & Hrows & H).
  apply ret_Ok in H. destruct H as [-> ->].
  apply transition_rows_world in Hrows.
  destruct Hrows as (Ht & Hpy & Hnp).
  unfold xrange in Hpy, Hnp. rewrite length_seq in Hpy, Hnp.
  simpl in *. split; [exact Ht|]. lia.
Qed.

(** X10: a call of [random_model_from_emissions] that returns a model of
    [n] states has read [n] values of [random.random()], one stay
    probability per row, and [n + n * n] values of numpy's
    [random_sample]; it does not change what the generators return at a
    given position. *)
Theorem random_model_from_emissions_draw_count
  (e : ndarray) (w : World) (m : Model) (w' : World) :
  random_model_from_emissions e w = Ok (m, w') ->
  same_tapes w w' /\
  py_pos w' = py_pos w + n_states m /\
  np_pos w' = np_pos w + n_states m + n_states m * n_states m.
Proof.
  exact (random_model_from_emissions_world e w m w').
Qed.

Lemma random_model_from_emissions_draw_count_witness :
  exists m w',
    random_model_from_emissions (mkArray [3] [342%Q; 541%Q; 280%Q])
                                Scenario.half_world = Ok (m, w') /\
    py_pos w' = 3 /\ np_pos w' = 12.
Proof.
  destruct (random_model_from_emissions (mkArray [3] [342%Q; 541%Q; 280%Q])
              Scenario.half_world) as [[m w']|e] eqn:E.
  - exists m, w'. split; [reflexivity|].
    destruct (random_model_from_emissions_draw_count _ _ _ _ E)
      as (_ & Hpy & Hnp).
    assert (Hn : n_states m = 3) by (vm_compute in E; inversion E; reflexivity).
    rewrite Hn in Hpy, Hnp. split; [exact Hpy | exact Hnp].
  - vm_compute in E. discriminate E.
Defined.

(** ** ModelFactory: [random_model] *)

(** X11: [random_model(n_states, n_obs)] never raises, zero states or
    zero observables included: it returns a model with the asked numbers
    of states and observables, whose emissions are an [n_states] by
    [n_obs] array of whole numbers from [0] to [1499], with [n_states]
    start weights and [n_states] rows of [n_states] transition weights. *)
Theorem random_model_returns (n k : nat) (w : World) :
  exists m w',
    random_model n k w = Ok (m, w') /\
    n_states m = n /\ n_obs m = k /\
    shape (emissions m) = [n; k] /\ wf_array (emissions m) /\
    Forall (fun x => exists z : Z, x = inject_Z z /\ (0 <= z < 1500)%Z)
           (flat (emissions m)) /\
    length (start_prob m) = n /\ length (trans_prob m) = n /\
    Forall (fun t => length t = n) (trans_prob m).
Proof.
  unfold random_model, bind, randint. simpl.
  destruct (random_model_from_matrix n k
              (map (fun i => inject_Z (0 + np_int w (np_pos w + i) mod (1500 - 0))%Z)
                   (seq 0 (n * k)))
              (np_advance (n * k) w))
    as (sp & tp & w' & Hm & Hs & Ht & Hall).
  eexists _, _. split; [exact Hm|]. simpl.
  repeat split; auto.
  - unfold wf_array. simpl. rewrite length_map, length_seq. lia.
  - apply Forall_map, Forall_forall. intros i _.
    eexists. split; [reflexivity|].
    pose proof (Z.mod_pos_bound (np_int w (np_pos w + i)) 1500 eq_refl).
    simpl. lia.
Qed.

(** ** ModelFactory: the diagonal of the transition matrix *)

Lemma setitem_nth_error A (t : list A) i v t' :
  setitem t i v = Ok t' ->
  nth_error t' i = Some v /\
  forall j, j <> i -> nth_error t' j = nth_error t j.
Proof.
  revert i t'. induction t as [|x t IH]; intros i t' H; simpl in H;
    [discriminate|].
  destruct i as [|i].
  - inv H. split; [reflexivity|]. intros [|j] Hj; [lia | reflexivity].
  - destruct (setitem t i v) as [r|e] eqn:E; [|discriminate]. inv H.
    destruct (IH _ _ E) as [Hi Hother]. split; [exact Hi|].
    intros [|j] Hj; [reflexivity|]. simpl. apply Hother. lia.
Qed.

(** In the row of state [i], no entry is larger than the entry of [i]. *)
Lemma transition_row_diagonal n i w :
  i < n -> unit_draws w -> positive_draws w ->
  exists t a,
    transition_row n i w = Ok (t, np_advance n (tick w)) /\
    nth_error t i = Some (Fin a) /\
    forall j, j < n -> j <> i ->
      exists b, nth_error t j = Some (Fin b) /\ (b <= a)%Q.
Proof.
  intros Hi Hu Hp.
  destruct (transition_row_total n i w Hi) as (t & Ht & Hl & Hrow).
  destruct (setitem_total Q
              (map (Qmult (py_tape w (py_pos w)))
                   (map (fun k => np_sample w (np_pos w + k)) (seq 0 n)))
              i (py_tape w (py_pos w))) as (t' & Ht' & _ & Hin & Hall).
  { rewrite !length_map, length_seq. exact Hi. }
  rewrite Ht in Ht'. injection Ht' as Heq. subst t'.
  destruct (Hp (py_pos w)) as [Hstay _].
  assert (Hnn : Forall (fun x => (0 <= x)%Q) t).
  { apply Hall; [|lra].
    apply Forall_map, Forall_map, Forall_forall. intros k _.
    destruct (Hu (np_pos w + k)) as [_ [H0 _]].
    apply Qmult_le_0_compat; lra. }
  assert (Hsum : (0 < Qsum t)%Q).
  { pose proof (Qsum_ge_In t _ Hnn Hin). lra. }
  assert (Hne : ~ (Qsum t == 0)%Q) by lra.
  destruct (setitem_nth_error _ _ _ _ _ Ht) as [Hdiag Hother].
  exists (normalize t), (py_tape w (py_pos w) / Qsum t)%Q.
  split; [exact Hrow|]. unfold normalize. split.
  - rewrite nth_error_map, Hdiag. simpl. rewrite (fdiv_finite _ _ Hne).
    reflexivity.
  - intros j Hj Hji.
    exists (py_tape w (py_pos w) * np_sample w (np_pos w + j) / Qsum t)%Q.
    split.
    + rewrite nth_error_map, (Hother j Hji), !nth_error_map, nth_error_seq.
      apply Nat.ltb_lt in Hj. rewrite Hj. simpl.
      rewrite (fdiv_finite _ _ Hne). reflexivity.
    + destruct (Hu (np_pos w + j)) as [_ [_ H1]].
      apply Qlt_le_weak.
      unfold Qdiv. apply Qmult_lt_compat_r; [apply Qinv_lt_0_compat; exact Hsum|].
      rewrite <- (Qmult_1_r (py_tape w (py_pos w))) at 2.
      apply Qmult_lt_l; assumption.
Qed.

Lemma transition_rows_diagonal n todo :
  Forall (fun i => i < n) todo ->
  forall acc w, unit_draws w -> positive_draws w ->
    exists rows w',
      transition_rows n todo acc w = Ok (acc ++ rows, w') /\
      Forall2 (fun i t =>
                 exists a, nth_error t i = Some (Fin a) /\
                   forall j, j < n -> j <> i ->
                     exists b, nth_error t j = Some (Fin b) /\ (b <= a)%Q)
              todo rows.
Proof.
  induction 1 as [|i todo Hi _ IH]; intros acc w Hu Hp; simpl.
  - exists [], w. rewrite app_nil_r. split; [reflexivity | constructor].
  - destruct (transition_row_diagonal n i w Hi Hu Hp) as (t & a & Hrow & Ha & Hb).
    unfold bind. rewrite Hrow.
    destruct (IH (acc ++ [t]) (np_advance n (tick w)))
      as (rows & w' & Hrows & Hall).
    { intro k. exact (Hu k). }
    { intro k. exact (Hp k). }
    exists (t :: rows), w'. rewrite Hrows, <- app_assoc.
    split; [reflexivity|]. constructor; [|exact Hall]. eauto.
Qed.

Lemma Forall2_seq_from A (P : nat -> A -> Prop) n : forall a (l : list A),
  Forall2 P (seq a n) l ->
  forall i, i < n -> exists x, nth_error l i = Some x /\ P (a + i) x.
Proof.
  induction n as [|n IH]; intros a l H i Hi; [lia|].
  simpl in H. inversion H as [|? x ? l' Hx Hrest]; subst.
  destruct i as [|i].
  - exists x. rewrite Nat.add_0_r. auto.
  - destruct (IH (S a) l' Hrest i) as (y & Hy & HP); [lia|].
    exists y. split; [exact Hy|].
    replace (a + S i) with (S a + i) by lia. exact HP.
Qed.

Lemma Forall2_seq_nth_error A (P : nat -> A -> Prop) n (l : list A) :
  Forall2 P (seq 0 n) l ->
  forall i, i < n -> exists x, nth_error l i = Some x /\ P i x.
Proof.
  intros H i Hi. exact (Forall2_seq_from A P n 0 l H i Hi).
Qed.

(** X12: away from draws that are exactly zero, in the transition matrix
    that [random_model_from_emissions] builds for an [r] by [c] emission
    matrix every entry is finite and the diagonal entry of every row is
    at least as large as every other entry of that row: no move is more
    likely than staying. *)
Theorem random_model_from_emissions_diagonal_largest
  (r c : nat) (fl : list Q) (w : World) :
  unit_draws w -> positive_draws w ->
  exists m w',
    random_model_from_emissions (mkArray [r; c] fl) w = Ok (m, w') /\
    forall i j, i < r -> j < r -> j <> i ->
      exists row a b,
        nth_error (trans_prob m) i = Some row /\
        nth_error row i = Some (Fin a) /\
        nth_error row j = Some (Fin b) /\ (b <= a)%Q.
Proof.
  intros Hu Hp.
  destruct (transition_rows_diagonal r (xrange r) (xrange_below r) []
              (np_advance r w)) as (rows & w' & Hrows & Hall).
  { intro k. exact (Hu k). }
  { intro k. exact (Hp k). }
  unfold random_model_from_emissions.
  unfold bind, ret, lift, random_sample. simpl. rewrite Hrows. simpl.
  eexists _, _. split; [reflexivity|]. simpl.
  intros i j Hi Hj Hji. unfold xrange in Hall.
  destruct (Forall2_seq_nth_error _ _ _ _ Hall i Hi) as (row & Hrow & a & Ha & Hb).
  destruct (Hb j Hj Hji) as (b & Hbj & Hlt).
  exists row, a, b. auto.
Qed.

Lemma random_model_from_emissions_diagonal_largest_witness :
  exists m w',
    random_model_from_emissions
      (mkArray [2; 1] [342%Q; 541%Q]) Scenario.half_world = Ok (m, w') /\
    exists row a b,
      nth_error (trans_prob m) 1 = Some row /\
      nth_error row 1 = Some (Fin a) /\
      nth_error row 0 = Some (Fin b) /\ (b <= a)%Q.
Proof.
  destruct (random_model_from_emissions_diagonal_largest
              2 1 [342%Q; 541%Q] Scenario.half_world)
    as (m & w' & Hm & Hd).
  - exact unit_draws_half.
  - intro k. split; reflexivity.
  - exists m, w'. split; [exact Hm|].
    apply (Hd 1 0); lia.
Defined.

(** ** The factory feeding the simulator *)

Lemma random_model_from_vector n fl w :
  length fl = n ->
  random_model_from_emissions (mkArray [n] fl) w =
  random_model_from_emissions (mkArray [n; 1] fl) w.
Proof.
  intro Hlen. unfold random_model_from_emissions.
  cbn [shape flat length Nat.eqb]. unfold reshape, len.
  cbn [shape flat hd].
  replace (size_of [n; 1] =? length fl) with true
    by (symmetry; apply Nat.eqb_eq; simpl; lia).
  reflexivity.
Qed.

Lemma transition_rows_length n todo : forall acc w rows w',
  transition_rows n todo acc w = Ok (rows, w') ->
  length rows = length acc + length todo.
Proof.
  induction todo as [|i todo IH]; intros acc w rows w' H; simpl in H.
  - apply ret_Ok in H. destruct H as [-> _]. simpl. lia.
  - apply bind_Ok in H. destruct H as (t0 & w1 & _ & H).
    apply IH in H. rewrite length_app in H. simpl in *. lia.
Qed.

(** The fields of a model that the factory returns fit together. *)
Lemma random_model_from_emissions_consistent e w m w' :
  random_model_from_emissions e w = Ok (m, w') ->
  shape (emissions m) = [n_states m; n_obs m] /\
  length (start_prob m) = n_states m /\
  length (trans_prob m) = n_states m.
Proof.
  unfold random_model_from_emissions. intro H.
  apply bind_Ok in H. destruct H as (e' & w0 & _ & H).
  apply bind_Ok in H. destruct H as ([r c] & w1 & Hd & H).
  apply lift_Ok in Hd. destruct Hd as [Hd _].
  apply bind_Ok in H. destruct H as (start & w2 & Hs & H).
  unfold random_sample in Hs. inv Hs.
  apply bind_Ok in H. destruct H as (rows & w3 & Hrows & H).
  apply ret_Ok in H. destruct H as [-> ->].
  apply transition_rows_length in Hrows.
  unfold xrange in Hrows. rewrite length_seq in Hrows.
  simpl in *. split; [|split].
  - destruct (shape e') as [|a [|b [|d sh]]]; simpl in Hd; try discriminate.
    inv Hd. reflexivity.
  - unfold normalize. rewrite !length_map, length_seq. reflexivity.
  - exact Hrows.
Qed.

Lemma poisson_Raise lam w x : poisson lam w = Raise x -> x = ValueError.
Proof.
  unfold poisson. destruct (existsb _ _); [congruence|].
  destruct (existsb _ _); [congruence | discriminate].
Qed.

Lemma weighted_choice_Raise A (choices : list A) probs w x :
  weighted_choice choices probs w = Raise x -> x = RuntimeError.
Proof.
  rewrite weighted_choice_unfold.
  destruct (walk _ _) as [c|e] eqn:E; [discriminate|].
  intro H. inv H. eapply walk_Raise; eauto.
Qed.

(** On a model whose fields fit together, a pass can only fail in the
    sampler or in [poisson]. *)
Lemma step_raises m noise v w c :
  shape (emissions m) = [n_states m; c] ->
  length (trans_prob m) = n_states m ->
  state v < n_states m -> length (dwells v) = n_states m ->
  match step m noise v w with
  | Ok (v', _) =>
      state v' < n_states m /\ length (dwells v') = n_states m
  | Raise x => x = RuntimeError \/ (noise = true /\ x = ValueError)
  end.
Proof.
  intros Hshape Hrows Hst Hdw. unfold step.
  unfold bind at 1. unfold lift at 1.
  rewrite (getitem_row _ _ _ _ Hshape Hst).
  set (datum0 := mkArray _ _).
  unfold bind at 1.
  destruct ((if noise then poisson datum0 else ret datum0) w)
    as [[datum w1]|x] eqn:En.
  2:{ destruct noise; [|discriminate].
      apply poisson_Raise in En. auto. }
  unfold bind at 1. unfold lift at 1. unfold index.
  destruct (nth_error (trans_prob m) (state v)) as [row|] eqn:Erow.
  2:{ apply nth_error_None in Erow. lia. }
  unfold bind at 1.
  destruct (weighted_choice (xrange (n_states m)) row w1)
    as [[s' w2]|x] eqn:Ec.
  2:{ apply weighted_choice_Raise in Ec. auto. }
  apply weighted_choice_In in Ec. destruct Ec as [Hin _].
  unfold xrange in Hin. apply in_seq in Hin.
  destruct (negb (s' =? state v)).
  - destruct (append_at_total (dwells v) (state v) (dwell v))
      as (dw' & Ha & Hl); [lia|].
    unfold bind, lift, ret. rewrite Ha. simpl. split; lia.
  - unfold ret. simpl. split; [lia | exact Hdw].
Qed.

Lemma iterate_raises m noise c n :
  shape (emissions m) = [n_states m; c] ->
  length (trans_prob m) = n_states m ->
  forall v w,
    state v < n_states m -> length (dwells v) = n_states m ->
    forall x, iterate n (step m noise) v w = Raise x ->
      x = RuntimeError \/ (noise = true /\ x = ValueError).
Proof.
  intros Hshape Hrows. induction n as [|n IH]; intros v w Hst Hdw x H.
  - discriminate.
  - rewrite iterate_S in H.
    pose proof (step_raises m noise v w c Hshape Hrows Hst Hdw) as Hstep.
    destruct (step m noise v w) as [[v1 w1]|y].
    + destruct Hstep as [Hst1 Hdw1]. eapply IH; eauto.
    + inv H. exact Hstep.
Qed.

(** X13: the script's pipeline, [random_model_from_emissions] followed by
    [random_data].  Whatever the emissions, the draws, the noise setting
    and the length (within the range of a C long, which [xrange] needs)
    are, the fields of a model that the factory returns fit together, so
    the simulation on it never fails on an index: it returns a trajectory
    of [max(L, 0)] observations and states, every state below
    [n_states], or raises the [RuntimeError] of the sampler or, with
    noise, the [ValueError] of [poisson]. *)
Theorem factory_then_simulation_errors
  (e : ndarray) (w : World) (m : Model) (w1 : World) (L : Z) (noise : bool) :
  (-9223372036854775808 <= L <= 9223372036854775807)%Z ->
  random_model_from_emissions e w = Ok (m, w1) ->
  match random_data m L noise w1 with
  | Ok ((obs, seq, dw), _) =>
      length obs = Z.to_nat L /\ length seq = Z.to_nat L /\
      Forall (fun s => s < n_states m) seq /\
      length dw = n_states m
  | Raise x => x = RuntimeError \/ (noise = true /\ x = ValueError)
  end.
Proof.
  intros _ Hm.
  destruct (random_model_from_emissions_consistent _ _ _ _ Hm)
    as (Hshape & _ & Hrows).
  destruct (random_data m L noise w1) as [[[[obs seq] dw] w2]|x] eqn:E.
  - apply random_data_Ok in E. destruct E as (v & Hr & -> & -> & ->).
    pose proof (random_data_run_dwell_total _ _ _ _ _ _ Hr) as (_ & _ & Hlen).
    apply random_data_run_shape in Hr. tauto.
  - unfold random_data, random_data_run, bind at 1 2 in E.
    destruct (weighted_choice (xrange (n_states m)) (start_prob m) w1)
      as [[s0 w2]|y] eqn:Ec.
    + apply weighted_choice_In in Ec. destruct Ec as [Hin _].
      unfold xrange in Hin. apply in_seq in Hin.
      destruct (iterate _ _ _ w2) as [[v w3]|y] eqn:Eit; [discriminate|].
      inv E.
      eapply (iterate_raises m noise (n_obs m) _ Hshape Hrows); [| |exact Eit].
      * simpl. lia.
      * simpl. rewrite length_map, length_seq. reflexivity.
    + inv E. apply weighted_choice_Raise in Ec. auto.
Qed.

Lemma factory_then_simulation_errors_witness :
  exists m w1,
    random_model_from_emissions
      (mkArray [6] [342%Q; 541%Q; 280%Q; 844%Q; 772%Q; 300%Q])
      Scenario.half_world = Ok (m, w1) /\
    match random_data m 7 true w1 with
    | Ok ((obs, seq, dw), _) =>
        length obs = 7 /\ length seq = 7 /\
        Forall (fun s => s < n_states m) seq /\ length dw = n_states m
    | Raise x => x = RuntimeError \/ (true = true /\ x = ValueError)
    end.
Proof.
  destruct (random_model_from_emissions
              (mkArray [6] [342%Q; 541%Q; 280%Q; 844%Q; 772%Q; 300%Q])
              Scenario.half_world) as [[m w1]|x] eqn:E.
  - exists m, w1. split; [reflexivity|].
    apply (factory_then_simulation_errors
             (mkArray [6] [342%Q; 541%Q; 280%Q; 844%Q; 772%Q; 300%Q])
             Scenario.half_world m w1 7 true); [lia | exact E].
  - vm_compute in E. discriminate E.
Defined.

(** ** [transition_matrix] *)

Lemma concat_row A (c : nat) (rows : list (list A)) :
  Forall (fun r => length r = c) rows ->
  forall i row, nth_error rows i = Some row ->
    firstn c (skipn (i * c) (concat rows)) = row.
Proof.
  induction 1 as [|r rows Hr Hrows IH]; intros i row Hi.
  - destruct i; discriminate.
  - destruct i as [|i]; simpl in Hi.
    + inv Hi. simpl. rewrite firstn_app, firstn_all, Nat.sub_diag.
      simpl. apply app_nil_r.
    + simpl concat. simpl Nat.mul.
      rewrite skipn_app, Hr.
      rewrite skipn_all2 by lia.
      replace (c + i * c - c) with (i * c) by lia.
      simpl. apply IH. exact Hi.
Qed.

(** X14: [transition_matrix(hmm)] is the square array of the values
    [hmm.getTransition(row, col)]: for [i < N] its row [i], read back by
    indexing, is [getTransition(i, 0)], ..., [getTransition(i, N - 1)],
    and an index from [N] on raises [IndexError].  For [N = 0] the array
    is empty and of rank one. *)
Theorem transition_matrix_rows (hmm : Ghmm.HMM) :
  wf_array (transition_matrix hmm) /\
  shape (transition_matrix hmm) =
    (if Ghmm.N hmm =? 0 then [0] else [Ghmm.N hmm; Ghmm.N hmm]) /\
  forall i,
    getitem (transition_matrix hmm) i =
    if i <? Ghmm.N hmm
    then Ok (mkArray [Ghmm.N hmm]
               (map (fun col => Ghmm.getTransition hmm i col)
                    (range (Ghmm.N hmm))))
    else Raise IndexError.
Proof.
  unfold transition_matrix, range.
  destruct (Ghmm.N hmm) as [|n] eqn:EN.
  - simpl. repeat split.
  - set (rows := map (fun row => get_row hmm row) (seq 0 (S n))).
    assert (Hrows : Forall (fun r => length r = S n) rows).
    { apply Forall_map, Forall_forall. intros i _.
      unfold get_row, range. rewrite length_map, length_seq. exact EN. }
    assert (Hlen : length rows = S n)
      by (unfold rows; rewrite length_map, length_seq; reflexivity).
    assert (Harr : array rows = mkArray [S n; S n] (concat rows)).
    { unfold rows at 1. simpl map. unfold array.
      fold (map (fun row => get_row hmm row) (seq 1 n)).
      change (get_row hmm 0 :: map (fun row => get_row hmm row) (seq 1 n))
        with rows.
      rewrite Hlen. unfold get_row, range.
      rewrite length_map, length_seq, EN. reflexivity. }
    rewrite Harr. split; [|split; [reflexivity|]].
    + unfold wf_array. cbn [flat shape size_of fold_right].
      rewrite length_concat.
      assert (G : forall l : list (list Q),
                Forall (fun r => length r = S n) l ->
                list_sum (map (@length Q) l) = length l * S n).
      { induction 1 as [|a l Ha _ IH]; simpl; [reflexivity|].
        rewrite Ha, IH. lia. }
      rewrite (G rows Hrows), Hlen. lia.
    + intro i. unfold getitem. cbn [shape flat size_of fold_right].
      destruct (i <? S n) eqn:E; [|reflexivity].
      rewrite Nat.mul_1_r. f_equal. f_equal.
      rewrite (concat_row Q (S n) rows Hrows i (get_row hmm i)).
      * unfold get_row, range. rewrite EN. reflexivity.
      * unfold rows. rewrite nth_error_map, nth_error_seq, E. reflexivity.
Qed.

(** ** A model without states *)

(** X15: a model with no state, or with no start weight, cannot be
    simulated: [random_data] raises [RuntimeError] when it draws the
    first state, for every length (zero and negative lengths included)
    and either noise setting.  The model that [random_model_from_emissions]
    builds from an emission matrix without rows is such a model. *)
Theorem random_data_without_states_raises
  (m : Model) (L : Z) (noise : bool) (w : World) :
  n_states m = 0 \/ start_prob m = [] ->
  random_data m L noise w = Raise RuntimeError.
Proof.
  intro H. unfold random_data, random_data_run, bind at 1 2.
  rewrite weighted_choice_unfold.
  replace (combine (xrange (n_states m)) (start_prob m))
    with (@nil (nat * pyfloat)); [reflexivity|].
  destruct H as [-> | ->]; [reflexivity|].
  symmetry. apply combine_nil.
Qed.

Lemma random_data_without_states_raises_witness :
  exists m w1,
    random_model_from_emissions (mkArray [0; 3] []) Scenario.half_world
      = Ok (m, w1) /\
    random_data m 10 true w1 = Raise RuntimeError.
Proof.
  exists (mkModel 0 3 [] [] (mkArray [0; 3] [])),
         (np_advance 0 Scenario.half_world).
  split; [reflexivity|].
  apply (random_data_without_states_raises
           (mkModel 0 3 [] [] (mkArray [0; 3] [])) 10 true
           (np_advance 0 Scenario.half_world)).
  left. reflexivity.
Defined.
